(** * beets-tagsanity: the plugin's handlers, embedded and verified

    A shallow embedding of [beetsplug/tagsanity.py]: Python [str] values are
    lists of code points, the plugin's dictionaries are finite maps, the
    metadata objects handed over by the host live in a heap indexed by
    object references, and every handler is a computation in a state and
    exception monad over that heap and the plugin's own tables.

    What the plugin takes from libraries outside the repository (the [regex]
    module's Unicode property tables, [unicodedata.normalize] and
    [Unidecoder.decode]) is an interface, [Externals], with the facts about
    Basic Latin that the proofs rely on. *)

From stdpp Require Import gmap strings list fin_maps.
From Stdlib Require Import NArith ZArith Ascii Lia.

Set Default Proof Using "Type".
Open Scope N_scope.

(** ** Text *)

(** A Python [str]: a sequence of Unicode code points. *)
Abbreviation text := (list N).

(** The code points of an ASCII literal. *)
Fixpoint txt (s : string) : text :=
  match s with
  | EmptyString => []
  | String a s' => N_of_ascii a :: txt s'
  end.

(** Python values held by attributes of the host's records. *)
Inductive pyval :=
  | VNone
  | VInt (z : Z)
  | VStr (s : text).

#[global] Instance pyval_eq_dec : EqDecision pyval.
Proof. solve_decision. Defined.

#[global] Instance pyval_countable : Countable pyval.
Proof.
  refine (inj_countable'
    (λ v, match v with
          | VNone => inl ()
          | VInt z => inr (inl z)
          | VStr s => inr (inr s)
          end)
    (λ x, match x with
          | inl _ => VNone
          | inr (inl z) => VInt z
          | inr (inr s) => VStr s
          end) _).
  by intros [].
Defined.

(** Python truthiness: [None], [0] and the empty string are false. *)
Definition truthy (v : pyval) : bool :=
  match v with
  | VNone => false
  | VInt z => negb (Z.eqb z 0)
  | VStr s => negb (bool_decide (s = []))
  end.

(** ** Exceptions *)

Inductive exn :=
  | AttributeError
  | KeyError
  | StopIteration
  | ValueError
  | IndexError
  | RegexError.

#[global] Instance exn_eq_dec : EqDecision exn.
Proof. solve_decision. Defined.

Inductive result (A : Type) :=
  | Ok (a : A)
  | Raise (e : exn).
Arguments Ok {A} a.
Arguments Raise {A} e.

(** ** Unicode data *)

(** The thirty general categories, as [\p{..}] of the [regex] module reads
    them. *)
Inductive GC :=
  | Lu | Ll | Lt | Lm | Lo
  | Mn | Mc | Me
  | Nd | Nl | No
  | Pc | Pd | Ps | Pe | Pi | Pf | Po
  | Sm | Sc | Sk | So
  | Zs | Zl | Zp
  | Cc | Cf | Cs | Co | Cn.

#[global] Instance GC_eq_dec : EqDecision GC.
Proof. solve_decision. Defined.

(** General category of the Basic Latin block (U+0000 to U+007F). *)
Definition ascii_category (c : N) : GC :=
  if c <? 32 then Cc
  else if c =? 32 then Zs
  else if c <? 36 then Po
  else if c =? 36 then Sc
  else if c <? 40 then Po
  else if c =? 40 then Ps
  else if c =? 41 then Pe
  else if c =? 42 then Po
  else if c =? 43 then Sm
  else if c =? 44 then Po
  else if c =? 45 then Pd
  else if c <? 48 then Po
  else if c <? 58 then Nd
  else if c <? 60 then Po
  else if c <? 63 then Sm
  else if c <? 65 then Po
  else if c <? 91 then Lu
  else if c =? 91 then Ps
  else if c =? 92 then Po
  else if c =? 93 then Pe
  else if c =? 94 then Sk
  else if c =? 95 then Pc
  else if c =? 96 then Sk
  else if c <? 123 then Ll
  else if c =? 123 then Ps
  else if c =? 124 then Sm
  else if c =? 125 then Pe
  else if c =? 126 then Sm
  else Cc.

Definition is_ascii (c : N) : bool := c <? 128.

(** [AVAILABLE_LANG_CODES = ["ja", "kr", "vn", "zh"]]: the values a
    validated [langs_enabled] entry or [han_preference] can take. *)
Inductive lang_code := ja | kr | vn | zh.

#[global] Instance lang_code_eq_dec : EqDecision lang_code.
Proof. solve_decision. Defined.

(** [VALID_NORMALIZE_MODES], [None] apart. *)
Inductive norm_mode := NFC | NFKC | NFD | NFKD.

(** What the plugin calls in libraries outside the repository. *)
Class Externals := {
  (** Unicode general category of a code point ([regex]'s [\p{..}]). *)
  category : N → GC;
  category_ascii : ∀ c, is_ascii c = true → category c = ascii_category c;
  (** [regex]'s [\s]. *)
  white_space : N → bool;
  (** [regex.sub(class, template, s)] for a replacement template that holds
      a backslash: the module expands escapes and group references there. *)
  regex_sub_template : (N → bool) → text → text → result text;
  (** [unicodedata.normalize(mode, s)]; text of Basic Latin is in all four
      normal forms. *)
  normalize : norm_mode → text → text;
  normalize_ascii : ∀ m s, forallb is_ascii s = true → normalize m s = s;
  (** [Unidecoder(lang=l).decode(s)]. *)
  decode : lang_code → text → text;
}.

(** An instance that knows Basic Latin only: every other code point is
    unassigned, normalisation and transliteration change nothing. It serves
    to run the model on ASCII inputs. *)
Definition basic_latin : Externals := {|
  category c := if is_ascii c then ascii_category c else Cn;
  category_ascii c H :=
    @eq_ind_r bool true
      (λ b : bool, (if b then ascii_category c else Cn) = ascii_category c)
      eq_refl (is_ascii c) H;
  white_space c := bool_decide (c ∈ [9; 10; 11; 12; 13; 32]);
  regex_sub_template _ _ _ := Raise RegexError;
  normalize _ s := s;
  normalize_ascii _ _ _ := eq_refl;
  decode _ s := s;
|}.

(** ** Computations that may raise *)

#[global] Instance result_ret : MRet result := λ A a, Ok a.
#[global] Instance result_bind : MBind result := λ A B f r,
  match r with
  | Ok a => f a
  | Raise e => Raise e
  end.
#[global] Instance result_fmap : FMap result := λ A B f r,
  match r with
  | Ok a => Ok (f a)
  | Raise e => Raise e
  end.

(** ** Configuration *)

(** The validated settings [setup] copies onto the plugin. *)
Record config := {
  langs_enabled : list lang_code;
  tidy_unihandecode : bool;
  drop_feats_from_fields : list string;
  simplify_whitespace : bool;
  simplify_hyphens : bool;
  simplify_curly_quotes : bool;
  simplify_brackets : bool;
  left_bracket : text;
  right_bracket : text;
  unicode_normalization_mode : option norm_mode;
  process_fields : list string;
  han_preference : lang_code;
}.

Definition CONFIG_DEFAULT : config := {|
  langs_enabled := [ja; kr; vn; zh];
  tidy_unihandecode := true;
  drop_feats_from_fields := ["artist"; "artist_sort"; "title"]%string;
  simplify_whitespace := true;
  simplify_hyphens := true;
  simplify_curly_quotes := true;
  simplify_brackets := true;
  left_bracket := txt "(";
  right_bracket := txt ")";
  unicode_normalization_mode := Some NFC;
  process_fields :=
    ["arranger"; "artist_credit"; "artist"; "artist_sort"; "composer";
     "composer_sort"; "disctitle"; "lyricist"; "title"; "work";
     "work_disambig"]%string;
  han_preference := zh;
|}.

(** The configuration of [test_noop] and [test_strip]: everything off. *)
Definition CONFIG_NOOP : config := {|
  langs_enabled := [];
  tidy_unihandecode := false;
  drop_feats_from_fields := [];
  simplify_whitespace := false;
  simplify_hyphens := false;
  simplify_curly_quotes := false;
  simplify_brackets := false;
  left_bracket := txt "(";
  right_bracket := txt ")";
  unicode_normalization_mode := None;
  process_fields := process_fields CONFIG_DEFAULT;
  han_preference := zh;
|}.

(** Only bracket simplification, with two parentheses for an opening
    bracket. *)
Definition CONFIG_DOUBLED_BRACKET : config := {|
  langs_enabled := [];
  tidy_unihandecode := false;
  drop_feats_from_fields := [];
  simplify_whitespace := false;
  simplify_hyphens := false;
  simplify_curly_quotes := false;
  simplify_brackets := true;
  left_bracket := txt "((";
  right_bracket := txt ")";
  unicode_normalization_mode := None;
  process_fields := process_fields CONFIG_DEFAULT;
  han_preference := zh;
|}.

(** The defaults, without normalisation. *)
Definition CONFIG_NO_NORMALIZE : config := {|
  langs_enabled := langs_enabled CONFIG_DEFAULT;
  tidy_unihandecode := true;
  drop_feats_from_fields := drop_feats_from_fields CONFIG_DEFAULT;
  simplify_whitespace := true;
  simplify_hyphens := true;
  simplify_curly_quotes := true;
  simplify_brackets := true;
  left_bracket := txt "(";
  right_bracket := txt ")";
  unicode_normalization_mode := None;
  process_fields := process_fields CONFIG_DEFAULT;
  han_preference := zh;
|}.

(** ** Dictionaries keyed by strings *)

(** [k in d] for a dictionary whose keys are all strings: a key of another
    type is hashable and equal to none of them. *)
Definition dict_contains {V} (d : gmap text V) (k : pyval) : bool :=
  match k with
  | VStr s => bool_decide (is_Some (d !! s))
  | _ => false
  end.

(** [d[k]]. *)
Definition dict_getitem {V} (d : gmap text V) (k : pyval) : result V :=
  match k with
  | VStr s => match d !! s with Some v => Ok v | None => Raise KeyError end
  | _ => Raise KeyError
  end.

(** ** Identifier resolver: [lang_map] and [_get_decoder] *)

(** A [Unidecoder] instance: the language it was constructed for. *)
Record Unidecoder := { decoder_lang : lang_code }.

#[global] Instance Unidecoder_eq_dec : EqDecision Unidecoder.
Proof. solve_decision. Defined.

Definition lang_map_items (cfg : config) : list (text * lang_code) :=
  [ (txt "Hani", han_preference cfg);
    (txt "Hrkt", ja); (txt "Kana", ja); (txt "Hira", ja); (txt "Jpan", ja);
    (txt "ja", ja); (txt "jpn", ja); (txt "jp", ja);
    (txt "Hang", kr); (txt "Kore", kr); (txt "ko", kr); (txt "kor", kr);
    (txt "kr", kr);
    (txt "vi", vn); (txt "vie", vn); (txt "vn", vn); (txt "vnm", vn);
    (txt "Hans", zh); (txt "Hant", zh); (txt "zh", zh); (txt "zho", zh);
    (txt "cdo", zh); (txt "cjy", zh); (txt "cmn", zh); (txt "cnp", zh);
    (txt "cpi", zh); (txt "csp", zh); (txt "czh", zh); (txt "czo", zh);
    (txt "cn", zh); (txt "chn", zh) ].

Definition lang_map (cfg : config) : gmap text lang_code :=
  list_to_map (lang_map_items cfg).

(** [lang] and [script] are attribute values of the release: a string or
    [None] as the host builds them. The dictionary is indexed only after
    the membership test, as in the source. *)
Definition _get_decoder (cfg : config) (lang script : pyval)
    : result (option Unidecoder) :=
  mapped_lang ←
    (if truthy lang && dict_contains (lang_map cfg) lang then
       Some <$> dict_getitem (lang_map cfg) lang
     else if truthy script && dict_contains (lang_map cfg) script then
       Some <$> dict_getitem (lang_map cfg) script
     else Ok None);
  match mapped_lang with
  | Some l =>
      if bool_decide (l ∈ langs_enabled cfg)
      then Ok (Some {| decoder_lang := l |})
      else Ok None
  | None => Ok None
  end.

(** What the resolver's contract speaks of: a code is resolved when it is a
    string and a key of [lang_map]; it is unresolved when it is absent
    ([None], the empty string), not a string, or not a key. *)
Definition resolves (cfg : config) (code : pyval) (target : lang_code) : Prop :=
  ∃ s, code = VStr s ∧ lang_map cfg !! s = Some target.

Definition unresolved (cfg : config) (code : pyval) : Prop :=
  ∀ target, ¬ resolves cfg code target.

(** The decoder provider: a capability for the target when it is enabled. *)
Definition provide (cfg : config) (target : option lang_code)
    : option Unidecoder :=
  match target with
  | Some l =>
      if bool_decide (l ∈ langs_enabled cfg)
      then Some {| decoder_lang := l |}
      else None
  | None => None
  end.

(** ** Text sanitizer: [_process_string] *)

(** [str.isspace], which [str.strip()] removes at both ends. *)
Definition isspace (c : N) : bool :=
  (9 <=? c) && (c <=? 13) || (28 <=? c) && (c <=? 32)
  || (c =? 0x85) || (c =? 0xA0) || (c =? 0x1680)
  || (0x2000 <=? c) && (c <=? 0x200A)
  || (c =? 0x2028) || (c =? 0x2029) || (c =? 0x202F) || (c =? 0x205F)
  || (c =? 0x3000).

Fixpoint lstrip (s : text) : text :=
  match s with
  | [] => []
  | c :: s' => if isspace c then lstrip s' else s
  end.

Definition strip (s : text) : text := rev (lstrip (rev (lstrip s))).

(** [regex.sub(r"<class>+", repl, s)]: every maximal run of characters of
    the class becomes [repl]. [in_run] says the previous character was part
    of a run already replaced. *)
Fixpoint sub_runs (p : N → bool) (repl : text) (in_run : bool) (s : text)
    : text :=
  match s with
  | [] => []
  | c :: s' =>
      if p c then
        if in_run then sub_runs p repl true s'
        else repl ++ sub_runs p repl true s'
      else c :: sub_runs p repl false s'
  end.

(** [regex.sub(r"<class>", repl, s)] for a literal replacement: every
    character of the class becomes [repl]. *)
Fixpoint sub_each (p : N → bool) (repl : text) (s : text) : text :=
  match s with
  | [] => []
  | c :: s' => (if p c then repl else [c]) ++ sub_each p repl s'
  end.

Definition backslash : N := 92.
Definition space : N := 32.
Definition hyphen_minus : N := 45.
Definition apostrophe : N := 39.
Definition quotation_mark : N := 34.

Section sanitizer.
Context `{Externals} (cfg : config).

(** The character classes of the patterns: [\p{Z}], [\p{Pd}],
    [[\p{Pi}\p{Pf}]], [\p{Ps}], [\p{Pe}], [\p{C}], [\p{L}], [\p{Ll}],
    [\p{Lu}], [[\p{Pe}\p{Pf}\p{Po}]] and [[\p{Ps}\p{Pi}]]. *)
Definition in_Z (c : N) : bool :=
  match category c with Zs | Zl | Zp => true | _ => false end.
Definition in_Pd (c : N) : bool :=
  match category c with Pd => true | _ => false end.
Definition in_Pi_Pf (c : N) : bool :=
  match category c with Pi | Pf => true | _ => false end.
Definition in_Ps (c : N) : bool :=
  match category c with Ps => true | _ => false end.
Definition in_Pe (c : N) : bool :=
  match category c with Pe => true | _ => false end.
Definition in_C (c : N) : bool :=
  match category c with Cc | Cf | Cs | Co | Cn => true | _ => false end.
Definition in_L (c : N) : bool :=
  match category c with Lu | Ll | Lt | Lm | Lo => true | _ => false end.
Definition in_Ll (c : N) : bool :=
  match category c with Ll => true | _ => false end.
Definition in_Lu (c : N) : bool :=
  match category c with Lu => true | _ => false end.
Definition in_Pe_Pf_Po (c : N) : bool :=
  match category c with Pe | Pf | Po => true | _ => false end.
Definition in_Ps_Pi (c : N) : bool :=
  match category c with Ps | Pi => true | _ => false end.

(** [[`´‘’]] and [[“”]]. *)
Definition single_quote_like (c : N) : bool :=
  bool_decide (c ∈ [0x60; 0xB4; 0x2018; 0x2019]).
Definition double_quote_like (c : N) : bool :=
  bool_decide (c ∈ [0x201C; 0x201D]).

(** [regex.sub(r"<class>", template, s)] with a replacement taken from the
    configuration: a template without a backslash stands for itself. *)
Definition sub_template (p : N → bool) (template s : text) : result text :=
  if bool_decide (backslash ∈ template)
  then regex_sub_template p template s
  else Ok (sub_each p template s).

(** [regex.sub(r"(\p{Ll})(\p{Lu})", "\\1 \\2", s)]. *)
Fixpoint tidy_case (s : text) : text :=
  match s with
  | a :: ((b :: s') as rest) =>
      if in_Ll a && in_Lu b then a :: space :: b :: tidy_case s'
      else a :: tidy_case rest
  | _ => s
  end.

(** [\s+] followed by one character of class [p], once a first [\s] has
    been read: the character and how many characters were read up to and
    including it. The run is taken as long as possible, and given back
    from its end while no character of [p] follows. *)
Fixpoint spaces_then_aux (p : N → bool) (s : text) : option (N * nat) :=
  match s with
  | [] => None
  | c :: s' =>
      if white_space c then
        match spaces_then_aux p s' with
        | Some (x, n) => Some (x, S n)
        | None => if p c then Some (c, 1%nat) else None
        end
      else if p c then Some (c, 1%nat) else None
  end.

Definition spaces_then (p : N → bool) (s : text) : option (N * nat) :=
  match s with
  | [] => None
  | c :: s' =>
      if white_space c then
        match spaces_then_aux p s' with
        | Some (x, n) => Some (x, S n)
        | None => None
        end
      else None
  end.

(** [regex.sub(r"(\p{L})\s+([\p{Pe}\p{Pf}\p{Po}])|([\p{Ps}\p{Pi}])\s+(\p{L})",
    "\\1\\3\\2\\4", s)]: a match keeps its two end characters and drops
    the white space between them. [skip] counts the characters of the
    current match still to be passed over. *)
Fixpoint tidy_punct (skip : nat) (s : text) : text :=
  match s with
  | [] => []
  | c :: s' =>
      match skip with
      | S k => tidy_punct k s'
      | O =>
          match (if in_L c then spaces_then in_Pe_Pf_Po s' else None) with
          | Some (x, n) => c :: x :: tidy_punct n s'
          | None =>
              match (if in_Ps_Pi c then spaces_then in_L s' else None) with
              | Some (x, n) => c :: x :: tidy_punct n s'
              | None => c :: tidy_punct 0 s'
              end
          end
      end
  end.

(** The stages of [_process_string], in the order of the source; each
    [let] rebinds [str] as each assignment of the source does. Only the
    bracket stage can raise, on a replacement template the [regex] module
    refuses. *)
Definition _process_string (decoder : option Unidecoder) (str : text)
    : result text :=
  let str :=
    if simplify_whitespace cfg then sub_runs in_Z [space] false str
    else str in
  let str :=
    if simplify_hyphens cfg then sub_each in_Pd [hyphen_minus] str
    else str in
  let str :=
    if simplify_curly_quotes cfg then
      let str := sub_each single_quote_like [apostrophe] str in
      let str := sub_each double_quote_like [quotation_mark] str in
      sub_each in_Pi_Pf [quotation_mark] str
    else str in
  str ←
    (if simplify_brackets cfg then
       str ← sub_template in_Ps (left_bracket cfg) str;
       sub_template in_Pe (right_bracket cfg) str
     else Ok str);
  let str :=
    match decoder with
    | Some d =>
        let str := decode (decoder_lang d) str in
        if tidy_unihandecode cfg then tidy_punct 0 (tidy_case str)
        else str
    | None => str
    end in
  let str :=
    match unicode_normalization_mode cfg with
    | Some mode => sub_each in_C [] (normalize mode str)
    | None => str
    end in
  Ok (strip str).
End sanitizer.

(** ** [str.split] *)

(** The pieces of [s] between the occurrences of a non-empty [sep], read
    from the left. [cur] holds the piece being read, last character first;
    [skip] counts the characters of a separator found that are still to be
    passed over. *)
Fixpoint split_aux (sep : text) (skip : nat) (cur : text) (s : text)
    : list text :=
  match s with
  | [] => [rev cur]
  | c :: s' =>
      match skip with
      | S k => split_aux sep k cur s'
      | O =>
          if bool_decide (sep `prefix_of` s)
          then rev cur :: split_aux sep (length sep - 1) [] s'
          else split_aux sep 0 (c :: cur) s'
      end
  end.

(** [val.split(sep)]: only a string has the method, and it refuses the
    empty separator. *)
Definition str_split (val : pyval) (sep : text) : result (list text) :=
  match val with
  | VStr s =>
      if bool_decide (sep = []) then Raise ValueError
      else Ok (split_aux sep 0 [] s)
  | _ => Raise AttributeError
  end.

(** [l[0]]. *)
Definition list_getitem0 {A} (l : list A) : result A :=
  match l with
  | x :: _ => Ok x
  | [] => Raise IndexError
  end.

(** [next(it)]. *)
Definition next {A} (l : list A) : result A :=
  match l with
  | x :: _ => Ok x
  | [] => Raise StopIteration
  end.

(** ** The host's objects and the plugin's tables *)

(** A reference to a [TrackInfo] or an [AlbumInfo]. *)
Abbreviation loc := nat.

(** An info object: its attributes by name, and for a release the track
    objects of its [tracks] list (empty for a track). *)
Record object := {
  attrs : gmap string pyval;
  tracks : list loc;
}.

Definition empty_object : object := {| attrs := ∅; tracks := [] |}.

(** The state the handlers run in: the objects of the host, the [setattr]
    calls made on them so far in program order (what a host that tracks
    changes sees), and the three dictionaries of [TagSanity.__init__]. *)
Record world := {
  heap : gmap loc object;
  writes : list (loc * string * pyval);
  pending_albums : gmap pyval loc;
  pending_tracks : gmap pyval loc;
  track_join_phrases : gmap text text;
}.

Definition empty_world : world := {|
  heap := ∅;
  writes := [];
  pending_albums := ∅;
  pending_tracks := ∅;
  track_join_phrases := ∅;
|}.

Definition obj_at (w : world) (l : loc) : object :=
  default empty_object (heap w !! l).

(** A handler's body: it may change the world, and returns or raises. *)
Definition M (A : Type) : Type := world → world * result A.

#[global] Instance M_ret : MRet M := λ A a w, (w, Ok a).
#[global] Instance M_bind : MBind M := λ A B f m w,
  match m w with
  | (w', Ok a) => f a w'
  | (w', Raise e) => (w', Raise e)
  end.

Definition lift {A} (r : result A) : M A := λ w, (w, r).

(** [try: body except (caught...): handler]. *)
Definition try_except {A} (body : M A) (caught : list exn) (handler : M A)
    : M A := λ w,
  match body w with
  | (w', Raise e) =>
      if bool_decide (e ∈ caught) then handler w' else (w', Raise e)
  | r => r
  end.

(** [for x in xs: body]. *)
Fixpoint for_each {A} (xs : list A) (body : A → M unit) : M unit :=
  match xs with
  | [] => mret tt
  | x :: xs' => body x;; for_each xs' body
  end.

Definition hasattr (obj : loc) (name : string) : M bool := λ w,
  (w, Ok (bool_decide (is_Some (attrs (obj_at w obj) !! name)))).

Definition getattr (obj : loc) (name : string) : M pyval := λ w,
  (w, match attrs (obj_at w obj) !! name with
      | Some v => Ok v
      | None => Raise AttributeError
      end).

Definition set_attr (o : object) (name : string) (v : pyval) : object :=
  {| attrs := <[name := v]> (attrs o); tracks := tracks o |}.

Definition setattr (obj : loc) (name : string) (v : pyval) : M unit := λ w,
  ({| heap := <[obj := set_attr (obj_at w obj) name v]> (heap w);
      writes := writes w ++ [(obj, name, v)];
      pending_albums := pending_albums w;
      pending_tracks := pending_tracks w;
      track_join_phrases := track_join_phrases w |}, Ok tt).

(** [info.tracks]. *)
Definition get_tracks (obj : loc) : M (list loc) := λ w,
  (w, Ok (tracks (obj_at w obj))).

Definition with_join_phrases (w : world) (t : gmap text text) : world :=
  {| heap := heap w;
     writes := writes w;
     pending_albums := pending_albums w;
     pending_tracks := pending_tracks w;
     track_join_phrases := t |}.

(** [k in self.track_join_phrases]. *)
Definition join_phrases_contains (k : pyval) : M bool := λ w,
  (w, Ok (dict_contains (track_join_phrases w) k)).

(** [self.track_join_phrases.pop(k)]. *)
Definition join_phrases_pop (k : pyval) : M text := λ w,
  match k, dict_getitem (track_join_phrases w) k with
  | VStr s, Ok v => (with_join_phrases w (delete s (track_join_phrases w)), Ok v)
  | _, _ => (w, Raise KeyError)
  end.

(** [self.track_join_phrases[k] = v]. *)
Definition join_phrases_setitem (k v : text) : M unit := λ w,
  (with_join_phrases w (<[k := v]> (track_join_phrases w)), Ok tt).

(** [self.pending_tracks[k] = info]. *)
Definition pending_tracks_setitem (k : pyval) (info : loc) : M unit := λ w,
  ({| heap := heap w;
      writes := writes w;
      pending_albums := pending_albums w;
      pending_tracks := <[k := info]> (pending_tracks w);
      track_join_phrases := track_join_phrases w |}, Ok tt).

(** ** Raw extraction payload *)

(** An element of a MusicBrainz artist credit: a join phrase (a plain
    string) or a structured entry (a dictionary). *)
Inductive credit :=
  | JoinPhrase (s : text)
  | ArtistEntry (name : text).

(** The recording's API response, as far as [_mb_track_extract] reads it:
    the values under ["artist-credit"] and ["id"], when the keys are
    there. *)
Record payload := {
  artist_credit : option (list credit);
  recording_id : option text;
}.

(** [data[key]]. *)
Definition payload_getitem {A} (field : option A) : result A :=
  match field with
  | Some v => Ok v
  | None => Raise KeyError
  end.

(** [filter(lambda x: isinstance(x, str), credits)]. *)
Definition credit_str (x : credit) : option text :=
  match x with
  | JoinPhrase s => Some s
  | ArtistEntry _ => None
  end.

Definition filter_str (credits : list credit) : list text :=
  omap credit_str credits.

(** ** The handlers *)

(** The methods of [TagSanity] that the host calls, and the two they
    share. [self] is the configuration, read only after [setup], and the
    three dictionaries of the world. The body of each [for] loop is a
    definition of its own, named after the loop variable. *)

Section handlers.
Context `{Externals} (cfg : config).

(** The body of the loop of [_process_object]: a field the object lacks,
    or whose value is no string, is passed over; a string is sanitized and
    written back when the result differs. *)
Definition process_field (decoder : option Unidecoder) (obj : loc)
    (field : string) : M unit :=
  has ← hasattr obj field;
  if has : bool then
    val ← getattr obj field;
    match val with
    | VStr s =>
        clean ← lift (_process_string cfg decoder s);
        if bool_decide (clean ≠ s) then setattr obj field (VStr clean)
        else mret tt
    | _ => mret tt
    end
  else mret tt.

Definition _process_object (decoder : option Unidecoder) (obj : loc)
    : M unit :=
  for_each (process_fields cfg) (process_field decoder obj).

(** The body of the loop of [_scrub_track_feats]: a field the track lacks
    is passed over ([continue]); any other is set to the first piece of
    its value split at the join phrase. *)
Definition scrub_field (info : loc) (join_phrase : text) (key : string)
    : M unit :=
  has ← hasattr info key;
  if negb has then mret tt
  else
    val ← getattr info key;
    parts ← lift (str_split val join_phrase);
    first ← lift (list_getitem0 parts);
    setattr info key (VStr first).

(** When the recording of the track has an entry in the table, the entry
    is popped and the configured fields are cut at its phrase. *)
Definition _scrub_track_feats (info : loc) : M unit :=
  track_id ← getattr info "track_id";
  known ← join_phrases_contains track_id;
  if known : bool then
    track_id ← getattr info "track_id";
    join_phrase ← join_phrases_pop track_id;
    for_each (drop_feats_from_fields cfg) (scrub_field info join_phrase)
  else mret tt.

(** A track with an index belongs to a release and is left to
    [_albuminfo_received]; any other is remembered under its recording
    identifier. *)
Definition _trackinfo_received (info : loc) : M unit :=
  index ← getattr info "index";
  if bool_decide (index ≠ VNone) then mret tt
  else
    id ← getattr info "track_id";
    if truthy id then pending_tracks_setitem id info
    else mret tt.

(** The first plain string of the artist credit is stored under the
    identifier of the recording; [StopIteration] (no plain string) and
    [KeyError] (a key is missing) are caught. *)
Definition _mb_track_extract (data : payload) : M unit :=
  try_except
    (credits ← lift (payload_getitem (artist_credit data));
     join_phrase ← lift (next (filter_str credits));
     if truthy (VStr join_phrase) then
       id ← lift (payload_getitem (recording_id data));
       join_phrases_setitem id join_phrase
     else mret tt)
    [StopIteration; KeyError]
    (mret tt).

(** The body of the loop of [_albuminfo_received]. *)
Definition process_track (decoder : option Unidecoder) (track : loc)
    : M unit :=
  (if bool_decide (drop_feats_from_fields cfg ≠ [])
   then _scrub_track_feats track
   else mret tt);;
  _process_object decoder track.

(** One decoder for the release, from its language and script; then its
    tracks in order, then the release itself. *)
Definition _albuminfo_received (info : loc) : M unit :=
  language ← getattr info "language";
  script ← getattr info "script";
  decoder ← lift (_get_decoder cfg language script);
  tracks ← get_tracks info;
  for_each tracks (process_track decoder);;
  _process_object decoder info.
End handlers.

(** ** Vocabulary of the properties *)

(** *** Shapes of text and pipeline stages *)

(** A text that [lstrip] leaves as it is. *)
Definition head_nonspace (s : text) : Prop :=
  match s with
  | [] => True
  | c :: _ => isspace c = false
  end.

(** [c] is left alone by the substitution of class [p] by [r]. *)
Definition fixed_by (p : N → bool) (r c : N) : Prop := p c = true → c = r.

(** No two characters of class [p] are adjacent, and each is [r];
    [prev] says a character of the class stands just before. *)
Fixpoint run_free (p : N → bool) (r : N) (prev : bool) (s : text) : bool :=
  match s with
  | [] => true
  | c :: s' =>
      if p c then negb prev && (c =? r) && run_free p r true s'
      else run_free p r false s'
  end.

(** A stage of a text pipeline, with the shape of text it produces. *)
Record stage := {
  run : text → text;
  inv : text → Prop;
}.

(** A stage that is switched off does nothing and promises nothing. *)
Definition toggle (on : bool) (σ : stage) : stage :=
  if on then σ else {| run s := s; inv _ := True |}.

Fixpoint pipeline (σs : list stage) (s : text) : text :=
  match σs with
  | [] => s
  | σ :: σs' => pipeline σs' (run σ s)
  end.

(** A stage reaches its shape, changes nothing once there, and stripping
    stays within the shape. *)
Definition stage_ok (σ : stage) : Prop :=
  (∀ s, inv σ (run σ s)) ∧
  (∀ s, inv σ s → run σ s = s) ∧
  (∀ s, inv σ s → inv σ (strip s)).

(** Running [τ] stays within the shape of [σ]. *)
Definition keeps (τ σ : stage) : Prop := ∀ s, inv σ s → inv σ (run τ s).

(** Every stage is sound and no stage undoes the work of one before it. *)
Inductive compatible : list stage → Prop :=
  | compatible_nil : compatible []
  | compatible_cons σ σs :
      stage_ok σ → Forall (λ τ, keeps τ σ) σs → compatible σs →
      compatible (σ :: σs).

Definition collapse_stage (p : N → bool) (r : N) : stage :=
  {| run := sub_runs p [r] false; inv s := run_free p r false s = true |}.

Definition char_stage (p : N → bool) (r : N) : stage :=
  {| run := sub_each p [r]; inv := Forall (fixed_by p r) |}.

(** The substitutions of [_process_string] before the decoder, as stages,
    for bracket replacements of one character each. *)
Definition cleanup_stages `{Externals} (cfg : config) (lb rb : N)
    : list stage :=
  [ toggle (simplify_whitespace cfg) (collapse_stage in_Z space);
    toggle (simplify_hyphens cfg) (char_stage in_Pd hyphen_minus);
    toggle (simplify_curly_quotes cfg) (char_stage single_quote_like apostrophe);
    toggle (simplify_curly_quotes cfg) (char_stage double_quote_like quotation_mark);
    toggle (simplify_curly_quotes cfg) (char_stage in_Pi_Pf quotation_mark);
    toggle (simplify_brackets cfg) (char_stage in_Ps lb);
    toggle (simplify_brackets cfg) (char_stage in_Pe rb) ].

(** *** Occurrences of a join phrase *)

(** [P] stands in [V] at position [i]. *)
Definition occurs_at (P V : text) (i : nat) : Prop := P `prefix_of` drop i V.

Definition occurs (P V : text) : Prop := ∃ i, occurs_at P V i.

Definition first_occurrence (P V : text) (i : nat) : Prop :=
  occurs_at P V i ∧ ∀ j, (j < i)%nat → ¬ occurs_at P V j.

(** What is read of [s] before [sep] is met. *)
Fixpoint before_first (sep s : text) : text :=
  match s with
  | [] => []
  | c :: s' =>
      if bool_decide (sep `prefix_of` s) then []
      else c :: before_first sep s'
  end.

(** A value cut at the join phrase, when it is a string. *)
Definition truncate (P : text) (v : pyval) : pyval :=
  match v with
  | VStr V => VStr (before_first P V)
  | _ => v
  end.

(** *** What a capture stores *)

(** The first element of an artist credit that is a plain string. *)
Fixpoint first_join_phrase (credits : list credit) : option text :=
  match credits with
  | [] => None
  | JoinPhrase s :: _ => Some s
  | ArtistEntry _ :: rest => first_join_phrase rest
  end.

(** What a payload lets the tracker capture: the identifier and the first
    plain string of the credit, when both are there and the string is not
    empty. *)
Definition captured (data : payload) : option (text * text) :=
  match artist_credit data, recording_id data with
  | Some credits, Some id =>
      match first_join_phrase credits with
      | Some (c :: jp) => Some (id, c :: jp)
      | _ => None
      end
  | _, _ => None
  end.

(** Every join phrase in the table is a non-empty string. *)
Definition phrases_nonempty (w : world) : Prop :=
  ∀ id P, track_join_phrases w !! id = Some P → P ≠ [].

(** *** The journal of writes *)

(** The world after [setattr(obj, name, v)]. *)
Definition write_attr (w : world) (obj : loc) (name : string) (v : pyval)
    : world :=
  (setattr obj name v w).1.

(** The object a heap holds at a reference. *)
Definition heap_obj (h : gmap loc object) (l : loc) : object :=
  default empty_object (h !! l).

(** The heap after one [setattr]. *)
Definition apply_write (h : gmap loc object) (wr : loc * string * pyval)
    : gmap loc object :=
  <[wr.1.1 := set_attr (heap_obj h wr.1.1) wr.1.2 wr.2]> h.

Definition replay (ws : list (loc * string * pyval)) (h : gmap loc object)
    : gmap loc object :=
  foldl apply_write h ws.

(** The world after the writes [new], made in this order. *)
Definition journal_extend (w : world) (new : list (loc * string * pyval))
    : world :=
  {| heap := replay new (heap w);
     writes := writes w ++ new;
     pending_albums := pending_albums w;
     pending_tracks := pending_tracks w;
     track_join_phrases := track_join_phrases w |}.

(** Every write of [ws], made from heap [h] on, is one the field processor
    may make: on [obj], to a configured field that holds a string at that
    moment, of the sanitized string, which differs from the one held. *)
Fixpoint justified `{Externals} (cfg : config) (decoder : option Unidecoder)
    (obj : loc) (h : gmap loc object) (ws : list (loc * string * pyval))
    : Prop :=
  match ws with
  | [] => True
  | wr :: ws' =>
      wr.1.1 = obj ∧
      wr.1.2 ∈ process_fields cfg ∧
      (∃ s clean,
         attrs (heap_obj h obj) !! wr.1.2 = Some (VStr s) ∧
         _process_string cfg decoder s = Ok clean ∧
         clean ≠ s ∧
         wr.2 = VStr clean) ∧
      justified cfg decoder obj (apply_write h wr) ws'
  end.

(** *** The schedule of a release *)

(** Steps run one after the other; the first that raises ends the run. *)
Fixpoint run_all (steps : list (M unit)) : M unit :=
  match steps with
  | [] => mret tt
  | m :: ms => m;; run_all ms
  end.

(** What release arrival does once the decoder is there: for each track in
    order the scrub, when fields to drop are configured, then the field
    processor; at the end the field processor on the release. *)
Definition release_schedule `{Externals} (cfg : config)
    (decoder : option Unidecoder) (info : loc) (tracks : list loc)
    : list (M unit) :=
  flat_map
    (λ track,
       (if bool_decide (drop_feats_from_fields cfg ≠ [])
        then [_scrub_track_feats cfg track] else [])
       ++ [_process_object cfg decoder track])
    tracks
  ++ [_process_object cfg decoder info].

(** *** The objects of [test_drop_feats] *)

(** The configuration of [test_drop_feats]: the defaults, with featured
    artists dropped from [artist] only. *)
Definition CONFIG_DROP_ARTIST : config := {|
  langs_enabled := langs_enabled CONFIG_DEFAULT;
  tidy_unihandecode := true;
  drop_feats_from_fields := ["artist"%string];
  simplify_whitespace := true;
  simplify_hyphens := true;
  simplify_curly_quotes := true;
  simplify_brackets := true;
  left_bracket := txt "(";
  right_bracket := txt ")";
  unicode_normalization_mode := Some NFC;
  process_fields := process_fields CONFIG_DEFAULT;
  han_preference := zh;
|}.

(** The recording of [test_drop_feats]: "foo", " feat. ", "bar". *)
Definition payload_feat : payload := {|
  artist_credit :=
    Some [ArtistEntry (txt "foo"); JoinPhrase (txt " feat. ");
          ArtistEntry (txt "bar")];
  recording_id := Some (txt "mocktrack");
|}.

(** A recording whose first plain string is empty. *)
Definition payload_empty_phrase : payload := {|
  artist_credit :=
    Some [ArtistEntry (txt "foo"); JoinPhrase []; ArtistEntry (txt "bar")];
  recording_id := Some (txt "mocktrack");
|}.

(** The track of [test_drop_feats] at reference 1, as [TrackInfo] builds it:
    [artist_sort] was not given and holds [None]. The join phrase of its
    recording has been captured. *)
Definition world_feat : world := {|
  heap :=
    {[ 1%nat :=
         {| attrs :=
              {[ "track_id"%string := VStr (txt "mocktrack");
                 "title"%string := VStr (txt "foo feat. bar");
                 "artist"%string := VStr (txt "foo feat. bar");
                 "artist_sort"%string := VNone;
                 "index"%string := VNone ]};
            tracks := [] |} ]};
  writes := [];
  pending_albums := ∅;
  pending_tracks := ∅;
  track_join_phrases := {[ txt "mocktrack" := txt " feat. " ]};
|}.

(** The release of [test_drop_feats] at reference 2, with the track of
    [world_feat] at reference 1. *)
Definition world_release : world := {|
  heap :=
    <[ 2%nat :=
         {| attrs :=
              {[ "album_id"%string := VStr (txt "mockrelease");
                 "album"%string := VStr (txt "album feat. bar");
                 "artist"%string := VStr (txt "foo feat. bar");
                 "language"%string := VNone;
                 "script"%string := VNone ]};
            tracks := [1%nat] |} ]> (heap world_feat);
  writes := [];
  pending_albums := ∅;
  pending_tracks := ∅;
  track_join_phrases := track_join_phrases world_feat;
|}.

(** *** The fixed part of [lang_map] *)

(** The entries of [lang_map] below ["Hani"]: those that do not depend on
    the configuration. *)
Definition lang_map_fixed : list (text * lang_code) :=
  [ (txt "Hrkt", ja); (txt "Kana", ja); (txt "Hira", ja); (txt "Jpan", ja);
    (txt "ja", ja); (txt "jpn", ja); (txt "jp", ja);
    (txt "Hang", kr); (txt "Kore", kr); (txt "ko", kr); (txt "kor", kr);
    (txt "kr", kr);
    (txt "vi", vn); (txt "vie", vn); (txt "vn", vn); (txt "vnm", vn);
    (txt "Hans", zh); (txt "Hant", zh); (txt "zh", zh); (txt "zho", zh);
    (txt "cdo", zh); (txt "cjy", zh); (txt "cmn", zh); (txt "cnp", zh);
    (txt "cpi", zh); (txt "csp", zh); (txt "czh", zh); (txt "czo", zh);
    (txt "cn", zh); (txt "chn", zh) ].
(** The defaults, with Japanese for the Han script. *)
Definition CONFIG_PREFER_JA : config := {|
  langs_enabled := langs_enabled CONFIG_DEFAULT;
  tidy_unihandecode := true;
  drop_feats_from_fields := drop_feats_from_fields CONFIG_DEFAULT;
  simplify_whitespace := true;
  simplify_hyphens := true;
  simplify_curly_quotes := true;
  simplify_brackets := true;
  left_bracket := txt "(";
  right_bracket := txt ")";
  unicode_normalization_mode := Some NFC;
  process_fields := process_fields CONFIG_DEFAULT;
  han_preference := ja;
|}.

(** *** What the sanitizer leaves in a field *)

(** The text [_process_string] returns, and the input itself when it
    raises. *)
Definition sanitized `{Externals} (cfg : config) (decoder : option Unidecoder)
    (s : text) : text :=
  match _process_string cfg decoder s with
  | Ok clean => clean
  | Raise _ => s
  end.

(** A value after one pass of the field processor over its field. *)
Definition sanitize_value `{Externals} (cfg : config)
    (decoder : option Unidecoder) (v : pyval) : pyval :=
  match v with
  | VStr s => VStr (sanitized cfg decoder s)
  | _ => v
  end.

(** No template of the configuration asks the [regex] module to expand
    anything: brackets are not simplified, or neither replacement holds a
    backslash. *)
Definition literal_brackets (cfg : config) : Prop :=
  simplify_brackets cfg = false ∨
  ((backslash ∉ left_bracket cfg) ∧ (backslash ∉ right_bracket cfg)).

(** How often a field is named in a list of fields. *)
Definition occurrences (k : string) (fields : list string) : nat :=
  length (filter (λ f, f = k) fields).

(** A track like that of [world_feat], with two spaces in its title. *)
Definition world_spaced : world := {|
  heap :=
    {[ 1%nat :=
         {| attrs :=
              {[ "track_id"%string := VStr (txt "mocktrack");
                 "title"%string := VStr (txt "foo  feat. bar");
                 "artist_sort"%string := VNone;
                 "index"%string := VInt 3 ]};
            tracks := [] |} ]};
  writes := [];
  pending_albums := ∅;
  pending_tracks := ∅;
  track_join_phrases := ∅;
|}.

(** *** The tidy-up after transliteration *)

(** No lowercase letter stands directly before an uppercase one. *)
Fixpoint lower_upper_free `{Externals} (s : text) : bool :=
  match s with
  | a :: ((b :: _) as rest) =>
      negb (in_Ll a && in_Lu b) && lower_upper_free rest
  | _ => true
  end.

(** What is left of a text when its spaces and the characters of [\s] are
    taken out. *)
Definition without_spaces `{Externals} (s : text) : text :=
  List.filter (λ c, negb (white_space c || (c =? space))) s.

(** *** What the handlers may do to the objects *)

(** A value a handler may leave where [v] stood: nothing where there was
    nothing, a string where there was a string, and the value itself
    otherwise. *)
Definition value_evolves (v v' : option pyval) : Prop :=
  match v with
  | None => v' = None
  | Some (VStr _) => ∃ s', v' = Some (VStr s')
  | Some x => v' = Some x
  end.

(** No attribute was added or removed, no value that is no string was
    changed, every string is still a string, and the track lists are as
    they were. *)
Definition heap_evolves (h h' : gmap loc object) : Prop :=
  ∀ l, tracks (heap_obj h' l) = tracks (heap_obj h l) ∧
       ∀ k, value_evolves (attrs (heap_obj h l) !! k)
                          (attrs (heap_obj h' l) !! k).

(** Every write of [ws], made from heap [h] on, is to an object of [L] and
    an attribute of [K] that holds a string at that moment, and writes a
    string. *)
Fixpoint allowed (L : loc → Prop) (K : string → Prop)
    (h : gmap loc object) (ws : list (loc * string * pyval)) : Prop :=
  match ws with
  | [] => True
  | wr :: ws' =>
      L wr.1.1 ∧ K wr.1.2 ∧
      (∃ s s', attrs (heap_obj h wr.1.1) !! wr.1.2 = Some (VStr s) ∧
               wr.2 = VStr s') ∧
      allowed L K (apply_write h wr) ws'
  end.

(** From [w] to [w'] the objects changed by allowed writes only, all of
    them entered in the journal; the join-phrase table lost entries at
    most; the two pending tables are as they were. *)
Definition footprint (L : loc → Prop) (K : string → Prop) (w w' : world)
    : Prop :=
  ∃ new,
    heap w' = replay new (heap w) ∧
    writes w' = writes w ++ new ∧
    allowed L K (heap w) new ∧
    track_join_phrases w' ⊆ track_join_phrases w ∧
    pending_tracks w' = pending_tracks w ∧
    pending_albums w' = pending_albums w.

(** A computation that stays within the footprint, whether it ends or
    raises. *)
Definition within (L : loc → Prop) (K : string → Prop) {A} (m : M A)
    : Prop :=
  ∀ w, footprint L K w (m w).1.

(** *** Releases the handlers cannot fail on *)

(** The release has a language and a script attribute, and each of its
    tracks has a recording identifier and holds strings in the fields to
    drop featured artists from that it has. *)
Definition release_well_typed (cfg : config) (w : world) (info : loc)
    : Prop :=
  is_Some (attrs (obj_at w info) !! "language") ∧
  is_Some (attrs (obj_at w info) !! "script") ∧
  ∀ t, t ∈ tracks (obj_at w info) →
    is_Some (attrs (obj_at w t) !! "track_id") ∧
    ∀ key v, key ∈ drop_feats_from_fields cfg →
             attrs (obj_at w t) !! key = Some v → ∃ V, v = VStr V.

(** *** Bracket replacements the pipeline leaves alone *)

(** The substitution of the class [p] by the text [X], as a stage: in the
    text it produces, a character of the class is the whole of [X]. *)
Definition template_stage (p : N → bool) (X : text) : stage :=
  {| run := sub_each p X; inv := Forall (λ c, p c = true → X = [c]) |}.

(** [X] is not empty, and neither its first nor its last character is of
    class [p]. *)
Definition edge_free (p : N → bool) (X : text) : Prop :=
  (∃ c, head X = Some c ∧ p c = false) ∧
  (∃ c, last X = Some c ∧ p c = false).

(** The substitutions that are switched on leave the replacement text [X]
    as it is, wherever it is put: [X] holds no backslash; when white space
    is simplified, it is not empty, neither starts nor ends with a
    separator and has single spaces for separators; when hyphens are
    simplified, its only dash is the hyphen-minus; when curly quotes are
    simplified, it holds none of them; and an opening bracket in it is the
    whole left replacement. *)
Definition settled `{Externals} (cfg : config) (X : text) : Prop :=
  (backslash ∉ X) ∧
  (simplify_whitespace cfg = true →
     edge_free in_Z X ∧ run_free in_Z space false X = true) ∧
  (simplify_hyphens cfg = true → Forall (fixed_by in_Pd hyphen_minus) X) ∧
  (simplify_curly_quotes cfg = true →
     Forall (fixed_by single_quote_like apostrophe) X ∧
     Forall (fixed_by double_quote_like quotation_mark) X ∧
     Forall (fixed_by in_Pi_Pf quotation_mark) X) ∧
  Forall (λ c, in_Ps c = true → left_bracket cfg = [c]) X.

(** Brackets are not simplified, or both replacements are settled and a
    closing bracket in the right replacement is the whole of it. *)
Definition stable_brackets `{Externals} (cfg : config) : Prop :=
  simplify_brackets cfg = false ∨
  (settled cfg (left_bracket cfg) ∧ settled cfg (right_bracket cfg) ∧
   Forall (λ c, in_Pe c = true → right_bracket cfg = [c])
     (right_bracket cfg)).

(** The substitutions of [_process_string] before the decoder, as stages,
    with the bracket replacements of the configuration. *)
Definition template_stages `{Externals} (cfg : config) : list stage :=
  [ toggle (simplify_whitespace cfg) (collapse_stage in_Z space);
    toggle (simplify_hyphens cfg) (char_stage in_Pd hyphen_minus);
    toggle (simplify_curly_quotes cfg) (char_stage single_quote_like apostrophe);
    toggle (simplify_curly_quotes cfg) (char_stage double_quote_like quotation_mark);
    toggle (simplify_curly_quotes cfg) (char_stage in_Pi_Pf quotation_mark);
    toggle (simplify_brackets cfg) (template_stage in_Ps (left_bracket cfg));
    toggle (simplify_brackets cfg) (template_stage in_Pe (right_bracket cfg)) ].

(** The configuration of [test_bracket_preference]. *)
Definition CONFIG_BRACKET_PREFERENCE : config := {|
  langs_enabled := [];
  tidy_unihandecode := false;
  drop_feats_from_fields := [];
  simplify_whitespace := false;
  simplify_hyphens := false;
  simplify_curly_quotes := false;
  simplify_brackets := true;
  left_bracket := txt ">";
  right_bracket := txt "<";
  unicode_normalization_mode := None;
  process_fields := process_fields CONFIG_DEFAULT;
  han_preference := zh;
|}.

(** A release like that of [test_drop_feats], whose artist and whose
    track's title hold two spaces in a row; the track is one of a release
    and has an index. *)
Definition world_release_spaced : world := {|
  heap :=
    {[ 1%nat :=
         {| attrs :=
              {[ "track_id"%string := VStr (txt "mocktrack");
                 "title"%string := VStr (txt "foo  bar");
                 "artist"%string := VStr (txt "foo feat. bar");
                 "artist_sort"%string := VNone;
                 "index"%string := VInt 1 ]};
            tracks := [] |};
       2%nat :=
         {| attrs :=
              {[ "album_id"%string := VStr (txt "mockrelease");
                 "album"%string := VStr (txt "album");
                 "artist"%string := VStr (txt "foo  bar");
                 "language"%string := VNone;
                 "script"%string := VNone ]};
            tracks := [1%nat] |} ]};
  writes := [];
  pending_albums := ∅;
  pending_tracks := ∅;
  track_join_phrases := {[ txt "mocktrack" := txt " feat. " ]};
|}.

(** *** What release arrival leaves in the attributes *)



(** * Properties *)

(** ** Identifier resolver *)

Lemma lang_map_no_empty_key cfg : lang_map cfg !! ([] : text) = None.
Proof. vm_compute. reflexivity. Qed.

Lemma lang_map_hani cfg : lang_map cfg !! txt "Hani" = Some (han_preference cfg).
Proof. vm_compute. reflexivity. Qed.

(** From here on the table is used through its lookups only. *)
#[global] Opaque lang_map.

Lemma resolves_truthy cfg v t : resolves cfg v t → truthy v = true.
Proof.
  intros (s & -> & Hs). simpl.
  destruct s; [by rewrite lang_map_no_empty_key in Hs | done].
Qed.

Lemma resolves_contains cfg v :
  dict_contains (lang_map cfg) v = true ↔ ∃ t, resolves cfg v t.
Proof.
  split.
  - destruct v as [| |s]; unfold dict_contains; [discriminate..|].
    intros [t Ht]%bool_decide_eq_true. by exists t, s.
  - intros (t & s & -> & Hs). unfold dict_contains.
    apply bool_decide_eq_true. by exists t.
Qed.

Lemma resolves_getitem cfg v t :
  resolves cfg v t → dict_getitem (lang_map cfg) v = Ok t.
Proof. intros (s & -> & Hs). simpl. by rewrite Hs. Qed.

Lemma get_decoder_first cfg lang script t :
  resolves cfg lang t →
  _get_decoder cfg lang script = Ok (provide cfg (Some t)).
Proof.
  intros Hl. unfold _get_decoder.
  rewrite (resolves_truthy _ _ _ Hl).
  rewrite (proj2 (resolves_contains cfg lang)) by eauto.
  rewrite (resolves_getitem _ _ _ Hl). cbn. by case_bool_decide.
Qed.

Lemma get_decoder_second cfg lang script :
  unresolved cfg lang →
  _get_decoder cfg lang script =
    _get_decoder cfg VNone script.
Proof.
  intros Hl. unfold _get_decoder.
  destruct (dict_contains (lang_map cfg) lang) eqn:Hc.
  - apply resolves_contains in Hc as [t Ht]. by destruct (Hl t).
  - by rewrite andb_false_r.
Qed.

Lemma get_decoder_neither cfg script :
  unresolved cfg script → _get_decoder cfg VNone script = Ok None.
Proof.
  intros Hs. unfold _get_decoder. simpl.
  destruct (dict_contains (lang_map cfg) script) eqn:Hc.
  - apply resolves_contains in Hc as [t Ht]. by destruct (Hs t).
  - by rewrite andb_false_r.
Qed.

Lemma hani_resolves cfg :
  resolves cfg (VStr (txt "Hani")) (han_preference cfg).
Proof. exists (txt "Hani"). split; [done | apply lang_map_hani]. Qed.

Lemma none_unresolved cfg : unresolved cfg VNone.
Proof. by intros t (s & ? & _). Qed.

(** C3: the resolver never raises; a mapped language decides alone; an
    absent or unmapped language leaves the decision to the script; when
    neither is mapped there is no decoder; the mapped target yields a
    decoder only if it is enabled; and the script code "Hani" alone stands
    for the configured Han preference. *)
Theorem get_decoder_lookup_order cfg :
  (∀ lang script, ∃ d, _get_decoder cfg lang script = Ok d) ∧
  (∀ lang script t,
     resolves cfg lang t →
     _get_decoder cfg lang script = Ok (provide cfg (Some t))) ∧
  (∀ lang script t,
     unresolved cfg lang → resolves cfg script t →
     _get_decoder cfg lang script = Ok (provide cfg (Some t))) ∧
  (∀ lang script,
     unresolved cfg lang → unresolved cfg script →
     _get_decoder cfg lang script = Ok None) ∧
  (∀ t, provide cfg (Some t) =
        if bool_decide (t ∈ langs_enabled cfg)
        then Some {| decoder_lang := t |} else None) ∧
  lang_map cfg !! txt "Hani" = Some (han_preference cfg) ∧
  _get_decoder cfg VNone (VStr (txt "Hani")) =
    Ok (if bool_decide (han_preference cfg ∈ langs_enabled cfg)
        then Some {| decoder_lang := han_preference cfg |} else None).
Proof.
  assert (Hsnd : ∀ lang script t,
     unresolved cfg lang → resolves cfg script t →
     _get_decoder cfg lang script = Ok (provide cfg (Some t))).
  { intros lang script t Hl Hs. rewrite get_decoder_second by done.
    unfold _get_decoder. simpl.
    rewrite (resolves_truthy _ _ _ Hs).
    rewrite (proj2 (resolves_contains cfg script)) by eauto.
    rewrite (resolves_getitem _ _ _ Hs). cbn. by case_bool_decide. }
  assert (Hnone : ∀ lang script,
     unresolved cfg lang → unresolved cfg script →
     _get_decoder cfg lang script = Ok None).
  { intros lang script Hl Hs. rewrite get_decoder_second by done.
    by apply get_decoder_neither. }
  split_and!.
  - intros lang script.
    destruct (dict_contains (lang_map cfg) lang) eqn:Hl.
    { apply resolves_contains in Hl as [t Ht].
      eexists. by apply get_decoder_first. }
    assert (unresolved cfg lang).
    { intros t Ht. rewrite (proj2 (resolves_contains cfg lang)) in Hl; [done | eauto]. }
    destruct (dict_contains (lang_map cfg) script) eqn:Hs.
    { apply resolves_contains in Hs as [t Ht]. eexists. by apply Hsnd. }
    eexists. apply Hnone; [done|].
    intros t Ht. rewrite (proj2 (resolves_contains cfg script)) in Hs; [done | eauto].
  - intros. by apply get_decoder_first.
  - exact Hsnd.
  - exact Hnone.
  - reflexivity.
  - apply lang_map_hani.
  - rewrite (Hsnd VNone _ _ (none_unresolved cfg) (hani_resolves cfg)).
    reflexivity.
Qed.

(** ** Text sanitizer *)

(** C4: with the four cleanup toggles off, no decoder and no normalisation
    mode, [_process_string] returns the stripped input and nothing else. *)
Theorem process_string_disabled_is_strip `{Externals} cfg (T : text) :
  simplify_whitespace cfg = false →
  simplify_hyphens cfg = false →
  simplify_curly_quotes cfg = false →
  simplify_brackets cfg = false →
  unicode_normalization_mode cfg = None →
  _process_string cfg None T = Ok (strip T).
Proof.
  intros Hw Hh Hq Hb Hn. unfold _process_string.
  by rewrite Hw, Hh, Hq, Hb, Hn.
Qed.

(** C4 at the configuration and the text of [test_strip]. *)
Lemma process_string_disabled_witness :
  (simplify_whitespace CONFIG_NOOP = false ∧
   simplify_hyphens CONFIG_NOOP = false ∧
   simplify_curly_quotes CONFIG_NOOP = false ∧
   simplify_brackets CONFIG_NOOP = false ∧
   unicode_normalization_mode CONFIG_NOOP = None) ∧
  _process_string (H := basic_latin) CONFIG_NOOP None (txt " hi ")
    = Ok (txt "hi").
Proof.
  split; [by repeat split|].
  exact (process_string_disabled_is_strip (H := basic_latin) CONFIG_NOOP
           (txt " hi ") eq_refl eq_refl eq_refl eq_refl eq_refl).
Defined.

(** *** Stripping *)

Lemma lstrip_suffix s : ∃ k, s = k ++ lstrip s.
Proof.
  induction s as [|c s [k IH]]; simpl; [by exists []|].
  destruct (isspace c); [|by exists []].
  exists (c :: k). simpl. by f_equal.
Qed.

(** [strip] keeps a contiguous part of its argument. *)
Lemma strip_infix s : ∃ k1 k2, s = k1 ++ strip s ++ k2.
Proof.
  unfold strip.
  destruct (lstrip_suffix s) as [k1 H1].
  destruct (lstrip_suffix (rev (lstrip s))) as [k2 H2].
  exists k1, (rev k2).
  rewrite <- rev_app_distr, <- H2, rev_involutive. exact H1.
Qed.

Lemma lstrip_head s : head_nonspace (lstrip s).
Proof.
  induction s as [|c s IH]; simpl; [done|].
  destruct (isspace c) eqn:E; [done|]. exact E.
Qed.

Lemma lstrip_id s : head_nonspace s → lstrip s = s.
Proof. destruct s as [|c s]; simpl; [done|]. by intros ->. Qed.

Lemma head_nonspace_prefix s k : head_nonspace (s ++ k) → head_nonspace s.
Proof. by destruct s. Qed.

Lemma strip_idempotent s : strip (strip s) = strip s.
Proof.
  unfold strip.
  set (u := lstrip s). set (v := lstrip (rev u)).
  assert (Hv : lstrip (rev v) = rev v).
  { apply lstrip_id.
    destruct (lstrip_suffix (rev u)) as [k Hk]. fold v in Hk.
    apply (head_nonspace_prefix _ (rev k)).
    rewrite <- rev_app_distr, <- Hk, rev_involutive. apply lstrip_head. }
  rewrite Hv, rev_involutive.
  f_equal. apply lstrip_id, lstrip_head.
Qed.

(** *** Trimmed results *)

Lemma strip_trimmed s :
  head_nonspace (strip s) ∧ head_nonspace (rev (strip s)).
Proof.
  unfold strip. split.
  - destruct (lstrip_suffix (rev (lstrip s))) as [k Hk].
    apply (head_nonspace_prefix _ (rev k)).
    rewrite <- rev_app_distr, <- Hk, rev_involutive. apply lstrip_head.
  - rewrite rev_involutive. apply lstrip_head.
Qed.

(** X3: whatever the configuration and the decoder, a text that
    [_process_string] returns neither starts nor ends with white space. *)
Lemma process_string_trimmed `{Externals} cfg decoder T r :
  _process_string cfg decoder T = Ok r →
  head_nonspace r ∧ head_nonspace (rev r).
Proof.
  unfold _process_string.
  destruct (if simplify_brackets cfg then _ else _) as [s|e]; simpl;
    [|done].
  intros [= <-]. apply strip_trimmed.
Qed.

(** *** Substitutions of a class by one character *)

Lemma sub_each_fixed p r s :
  Forall (fixed_by p r) s → sub_each p [r] s = s.
Proof.
  induction 1 as [|c s Hc _ IH]; simpl; [done|].
  rewrite IH. destruct (p c) eqn:E; [|done].
  by rewrite (Hc E).
Qed.

Lemma sub_each_result_fixed p r s : Forall (fixed_by p r) (sub_each p [r] s).
Proof.
  induction s as [|c s IH]; simpl; [constructor|].
  destruct (p c) eqn:E; simpl; constructor; try done.
  intros E'. congruence.
Qed.

Lemma sub_each_keeps_fixed p r p' r' s :
  fixed_by p r r' →
  Forall (fixed_by p r) s → Forall (fixed_by p r) (sub_each p' [r'] s).
Proof.
  intros Hr. induction 1 as [|c s Hc _ IH]; simpl; [constructor|].
  destruct (p' c); simpl; by constructor.
Qed.

Lemma Forall_infix {A} (P : A → Prop) (k1 s k2 : list A) :
  Forall P (k1 ++ s ++ k2) → Forall P s.
Proof. rewrite !Forall_app. tauto. Qed.

Lemma strip_keeps_fixed p r s :
  Forall (fixed_by p r) s → Forall (fixed_by p r) (strip s).
Proof.
  destruct (strip_infix s) as (k1 & k2 & Hs). intros HF.
  rewrite Hs in HF. by apply Forall_infix in HF.
Qed.

(** *** Collapsing runs of separators *)

Section runs.
Context (p : N → bool) (r : N).
Local Abbreviation run_free := (run_free p r).

Lemma sub_runs_fixed b s :
  run_free b s = true → sub_runs p [r] b s = s.
Proof.
  revert b. induction s as [|c s IH]; intros b; simpl; [done|].
  destruct (p c) eqn:E.
  - destruct b; simpl; [done|].
    intros [Hc Hs]%andb_true_iff. apply N.eqb_eq in Hc as ->.
    by rewrite (IH true Hs).
  - intros Hs. by rewrite (IH false Hs).
Qed.

Lemma sub_runs_result_run_free b s :
  p r = true → run_free b (sub_runs p [r] b s) = true.
Proof.
  intros Hr. revert b. induction s as [|c s IH]; intros b; simpl; [done|].
  destruct (p c) eqn:E.
  - destruct b; [apply IH|].
    simpl. rewrite Hr, N.eqb_refl. simpl. apply IH.
  - simpl. rewrite E. apply IH.
Qed.

Lemma run_free_weaken b s : run_free b s = true → run_free false s = true.
Proof.
  destruct s as [|c s]; simpl; [done|].
  destruct (p c); [|done]. destruct b; simpl; [done|done].
Qed.

Lemma run_free_app b s k :
  run_free b (s ++ k) = true → run_free b s = true.
Proof.
  revert b. induction s as [|c s IH]; intros b; simpl; [done|].
  destruct (p c); [|apply IH].
  intros [H1 H2]%andb_true_iff. rewrite H1. simpl. by eapply IH.
Qed.

Lemma run_free_suffix k s :
  run_free false (k ++ s) = true → run_free false s = true.
Proof.
  induction k as [|c k IH]; simpl; [done|].
  destruct (p c).
  - intros [_ H2]%andb_true_iff. apply IH. by eapply run_free_weaken.
  - apply IH.
Qed.

Lemma strip_keeps_run_free s :
  run_free false s = true → run_free false (strip s) = true.
Proof.
  destruct (strip_infix s) as (k1 & k2 & Hs). intros HF.
  rewrite Hs in HF. apply run_free_suffix in HF. by eapply run_free_app.
Qed.

Lemma sub_each_keeps_run_free p' r' b s :
  p r' = false → p' r = false →
  run_free b s = true → run_free b (sub_each p' [r'] s) = true.
Proof.
  intros Hr' Hr. revert b. induction s as [|c s IH]; intros b; simpl; [done|].
  destruct (p c) eqn:E.
  - intros [[Hb Hc%N.eqb_eq]%andb_true_iff Hs]%andb_true_iff. subst c.
    rewrite Hr. simpl. rewrite E, Hb, N.eqb_refl. simpl. by apply IH.
  - intros Hs. destruct (p' c); simpl.
    + rewrite Hr'. by apply IH.
    + rewrite E. by apply IH.
Qed.
End runs.

(** *** Pipelines of compatible stages *)

Lemma pipeline_keeps σ σs s :
  Forall (λ τ, keeps τ σ) σs → inv σ s → inv σ (pipeline σs s).
Proof.
  intros HF. revert s. induction HF as [|τ σs Hτ _ IH]; intros s Hs; simpl.
  - done.
  - apply IH, Hτ, Hs.
Qed.

Lemma pipeline_shapes σs s :
  compatible σs → Forall (λ σ, inv σ (pipeline σs s)) σs.
Proof.
  intros Hc. revert s.
  induction Hc as [|σ σs (Hrun & _ & _) Hk _ IH]; intros s; simpl.
  - constructor.
  - constructor; [|apply IH]. by apply pipeline_keeps.
Qed.

Lemma pipeline_fixed σs s :
  compatible σs → Forall (λ σ, inv σ s) σs → pipeline σs s = s.
Proof.
  intros Hc. induction Hc as [|σ σs (_ & Hfix & _) _ _ IH]; simpl; [done|].
  intros [Hσ Hσs]%Forall_cons. rewrite (Hfix _ Hσ). by apply IH.
Qed.

Lemma compatible_strip σs s :
  compatible σs →
  Forall (λ σ, inv σ s) σs → Forall (λ σ, inv σ (strip s)) σs.
Proof.
  intros Hc. induction Hc as [|σ σs (_ & _ & Hstrip) _ _ IH]; [done|].
  intros [Hσ Hσs]%Forall_cons. constructor; [by apply Hstrip | by apply IH].
Qed.

(** Stripping the result of a compatible pipeline gives a text that the
    pipeline and the stripping both leave alone. *)
Lemma pipeline_strip_fixed σs s :
  compatible σs →
  let r := strip (pipeline σs s) in
  pipeline σs r = r ∧ strip r = r.
Proof.
  intros Hc r. split; [|apply strip_idempotent].
  apply pipeline_fixed; [done|].
  apply compatible_strip; [done|]. by apply pipeline_shapes.
Qed.

Lemma toggle_ok on σ : stage_ok σ → stage_ok (toggle on σ).
Proof. destruct on; [done|]. by repeat split. Qed.

Lemma toggle_keeps on on' τ σ : keeps τ σ → keeps (toggle on τ) (toggle on' σ).
Proof. destruct on, on'; try done; by intros ? ?. Qed.

Lemma char_stage_ok p r : stage_ok (char_stage p r).
Proof.
  split_and!; simpl.
  - apply sub_each_result_fixed.
  - apply sub_each_fixed.
  - apply strip_keeps_fixed.
Qed.

Lemma collapse_stage_ok p r : p r = true → stage_ok (collapse_stage p r).
Proof.
  intros Hr. split_and!; simpl.
  - intros s. by apply sub_runs_result_run_free.
  - apply sub_runs_fixed.
  - apply strip_keeps_run_free.
Qed.

Lemma char_keeps_char p r p' r' :
  fixed_by p r r' → keeps (char_stage p' r') (char_stage p r).
Proof. intros Hr s. by apply sub_each_keeps_fixed. Qed.

Lemma char_keeps_collapse p r p' r' :
  p r' = false → p' r = false →
  keeps (char_stage p' r') (collapse_stage p r).
Proof. intros H1 H2 s. by apply sub_each_keeps_run_free. Qed.

(** *** Substitutions of a class by a text *)

Lemma sub_each_template_Forall (P : N → Prop) p X s :
  Forall P X → Forall P s → Forall P (sub_each p X s).
Proof.
  intros HX. induction 1 as [|c s Hc _ IH]; simpl; [constructor|].
  destruct (p c); [by apply Forall_app | by constructor].
Qed.

Lemma sub_each_template_result p X s :
  Forall (λ c, p c = true → X = [c]) X →
  Forall (λ c, p c = true → X = [c]) (sub_each p X s).
Proof.
  intros HX. induction s as [|c s IH]; simpl; [constructor|].
  destruct (p c) eqn:E; [by apply Forall_app|].
  constructor; [|done]. intros E'. congruence.
Qed.

Lemma sub_each_template_fixed p X s :
  Forall (λ c, p c = true → X = [c]) s → sub_each p X s = s.
Proof.
  induction 1 as [|c s Hc _ IH]; simpl; [done|].
  rewrite IH. destruct (p c) eqn:E; [|done]. by rewrite (Hc eq_refl).
Qed.

Lemma template_stage_ok p X :
  Forall (λ c, p c = true → X = [c]) X → stage_ok (template_stage p X).
Proof.
  intros HX. split_and!; simpl.
  - intros s. by apply sub_each_template_result.
  - apply sub_each_template_fixed.
  - intros s HF. destruct (strip_infix s) as (k1 & k2 & Hs).
    rewrite Hs in HF. by apply Forall_infix in HF.
Qed.

Lemma template_keeps_char p r p' X :
  Forall (fixed_by p r) X → keeps (template_stage p' X) (char_stage p r).
Proof. intros HX s. by apply sub_each_template_Forall. Qed.

Lemma template_keeps_template p Y p' X :
  Forall (λ c, p c = true → Y = [c]) X →
  keeps (template_stage p' X) (template_stage p Y).
Proof. intros HX s. by apply sub_each_template_Forall. Qed.

Section template_runs.
Context (p : N → bool) (r : N).

Lemma run_free_append b X k :
  run_free p r b X = true →
  (∃ c, last X = Some c ∧ p c = false) →
  run_free p r false k = true →
  run_free p r b (X ++ k) = true.
Proof.
  intros HX Hlast Hk. revert b HX Hlast.
  induction X as [|c X IH]; intros b HX (d & Hd & Hpd).
  { discriminate Hd. }
  rewrite last_cons in Hd. destruct (last X) as [d'|] eqn:HlX.
  - injection Hd as ->. revert HX. simpl. destruct (p c).
    + intros [H1 H2]%andb_true_iff. rewrite H1. simpl. apply IH; eauto.
    + intros H2. apply IH; eauto.
  - injection Hd as ->. apply last_None in HlX as ->. simpl. by rewrite Hpd.
Qed.

Lemma run_free_head b X c :
  head X = Some c → p c = false →
  run_free p r b X = run_free p r false X.
Proof. destruct X as [|c0 X]; [done|]. intros [= ->] Hc. simpl. by rewrite Hc. Qed.

Lemma sub_each_template_run_free p' X b s :
  (∀ c, p' c = true → p c = false) →
  edge_free p X → run_free p r false X = true →
  run_free p r b s = true → run_free p r b (sub_each p' X s) = true.
Proof.
  intros Hp [(c0 & Hhead & Hc0) Hlast] HX. revert b.
  induction s as [|c s IH]; intros b; simpl; [done|].
  destruct (p' c) eqn:E'.
  - rewrite (Hp c E'). intros Hs. apply run_free_append; [|done|by apply IH].
    by rewrite (run_free_head b X c0).
  - simpl. destruct (p c).
    + intros [H1 H2]%andb_true_iff. rewrite H1. simpl. by apply IH.
    + apply IH.
Qed.

Lemma template_keeps_collapse p' X :
  (∀ c, p' c = true → p c = false) →
  edge_free p X → run_free p r false X = true →
  keeps (template_stage p' X) (collapse_stage p r).
Proof. intros Hp He HX s. by apply sub_each_template_run_free. Qed.
End template_runs.

Lemma toggle_ok_when on σ : (on = true → stage_ok σ) → stage_ok (toggle on σ).
Proof. destruct on; [by intros H; apply H|]. by repeat split. Qed.

Lemma toggle_keeps_when on on' τ σ :
  (on = true → on' = true → keeps τ σ) → keeps (toggle on τ) (toggle on' σ).
Proof. destruct on, on'; try (by intros H; apply H); by intros ? ? ?. Qed.

(** *** The cleanup substitutions are compatible *)

Ltac ascii_class :=
  unfold fixed_by, in_Z, in_Pd, in_Pi_Pf, in_Ps, in_Pe;
  rewrite ?category_ascii by reflexivity;
  vm_compute; first [reflexivity | intros; discriminate].

Ltac stage_facts :=
  first
    [ apply char_stage_ok
    | apply collapse_stage_ok; ascii_class
    | apply char_keeps_char; ascii_class
    | apply char_keeps_collapse; ascii_class ].

Section idempotence.
Context `{Externals} (cfg : config).

Lemma cleanup_stages_compatible :
  compatible (cleanup_stages cfg 40 41).
Proof.
  unfold cleanup_stages.
  repeat
    (apply compatible_cons;
     [ apply toggle_ok; stage_facts
     | repeat (apply List.Forall_cons; [apply toggle_keeps; stage_facts|]);
       apply List.Forall_nil
     | ]).
  apply compatible_nil.
Qed.

Lemma sub_template_literal p template s :
  backslash ∉ template →
  sub_template p template s = Ok (sub_each p template s).
Proof. intros Hn. unfold sub_template. by rewrite bool_decide_eq_false_2. Qed.

(** Without decoder and normalisation, and with the default brackets when
    they are simplified, [_process_string] is the cleanup pipeline followed
    by [strip]. *)
Lemma process_string_as_pipeline T :
  unicode_normalization_mode cfg = None →
  simplify_brackets cfg = false ∨
    (left_bracket cfg = txt "(" ∧ right_bracket cfg = txt ")") →
  _process_string cfg None T
    = Ok (strip (pipeline (cleanup_stages cfg 40 41) T)).
Proof.
  intros Hn Hb. unfold _process_string, cleanup_stages. rewrite Hn.
  destruct (simplify_brackets cfg) eqn:Eb.
  - destruct Hb as [?|[Hlb Hrb]]; [done|].
    change (left_bracket cfg = [40]) in Hlb.
    change (right_bracket cfg = [41]) in Hrb.
    rewrite Hlb, Hrb.
    by destruct (simplify_whitespace cfg), (simplify_hyphens cfg),
      (simplify_curly_quotes cfg).
  - by destruct (simplify_whitespace cfg), (simplify_hyphens cfg),
      (simplify_curly_quotes cfg).
Qed.

Lemma brackets_not_separators :
  (∀ c, in_Ps c = true → in_Z c = false) ∧
  (∀ c, in_Pe c = true → in_Z c = false).
Proof.
  split; intros c; unfold in_Ps, in_Pe, in_Z; by destruct (category c).
Qed.

Lemma template_stages_compatible :
  stable_brackets cfg → compatible (template_stages cfg).
Proof.
  intros Hb.
  assert (Hon : simplify_brackets cfg = true →
            settled cfg (left_bracket cfg) ∧ settled cfg (right_bracket cfg) ∧
            Forall (λ c, in_Pe c = true → right_bracket cfg = [c])
              (right_bracket cfg)).
  { intros E. destruct Hb as [?|?]; [congruence|done]. }
  clear Hb. destruct brackets_not_separators as [HPs HPe].
  unfold template_stages.
  repeat
    (apply compatible_cons;
     [ first [ apply toggle_ok; stage_facts | apply toggle_ok_when; intros Eb ]
     | repeat (apply List.Forall_cons;
               [ first [ apply toggle_keeps; stage_facts
                       | apply toggle_keeps_when; intros Eb Eon ] |]);
       try apply List.Forall_nil
     | ]);
    try apply compatible_nil;
    try (destruct (Hon Eb)
           as ((_ & HLz & HLd & HLq & HLs) & (_ & HRz & HRd & HRq & HRs) & HRe)).
  all: try (apply template_keeps_collapse;
            [done | by apply HLz | by apply HLz]).
  all: try (apply template_keeps_collapse;
            [done | by apply HRz | by apply HRz]).
  all: try (apply template_keeps_char; first [by apply HLd | by apply HLq]).
  all: try (apply template_keeps_char; first [by apply HRd | by apply HRq]).
  all: try (by apply template_stage_ok).
  all: try (by apply template_keeps_template).
Qed.

Lemma process_string_as_templates T :
  unicode_normalization_mode cfg = None →
  stable_brackets cfg →
  _process_string cfg None T = Ok (strip (pipeline (template_stages cfg) T)).
Proof.
  intros Hn Hb. unfold _process_string, template_stages. rewrite Hn.
  destruct (simplify_brackets cfg) eqn:Eb.
  - destruct Hb as [?|((HL & _) & (HR & _) & _)]; [congruence|].
    cbn [mbind]. rewrite (sub_template_literal _ _ _ HL). cbn.
    rewrite (sub_template_literal _ _ _ HR).
    by destruct (simplify_whitespace cfg), (simplify_hyphens cfg),
      (simplify_curly_quotes cfg).
  - by destruct (simplify_whitespace cfg), (simplify_hyphens cfg),
      (simplify_curly_quotes cfg).
Qed.

(** C5, amended: without decoder, with normalisation off, and with bracket
    simplification off or with replacements that the substitutions
    switched on leave as they are (as "(" and ")", or ">" and "<", but not
    "(("), [_process_string] returns, and running it again on its result
    returns the same text. *)
Theorem process_string_idempotent T :
  unicode_normalization_mode cfg = None →
  stable_brackets cfg →
  ∃ r, _process_string cfg None T = Ok r ∧
       _process_string cfg None r = Ok r.
Proof.
  intros Hn Hb.
  exists (strip (pipeline (template_stages cfg) T)).
  split; [by apply process_string_as_templates|].
  rewrite process_string_as_templates by done.
  destruct (pipeline_strip_fixed _ T (template_stages_compatible Hb))
    as [-> ->].
  reflexivity.
Qed.

(** The default replacements "(" and ")" are stable, whatever else the
    configuration says. *)
Lemma default_brackets_stable :
  left_bracket cfg = txt "(" → right_bracket cfg = txt ")" →
  stable_brackets cfg.
Proof.
  intros HL HR.
  assert (Hsettled : ∀ c, c = 40 ∨ c = 41 →
            (c = 40 → left_bracket cfg = [c]) → settled cfg [c]).
  { intros c Hc Hleft.
    assert (Hz : in_Z c = false) by (destruct Hc as [->| ->]; ascii_class).
    split_and!.
    - apply (bool_decide_eq_false_1 (backslash ∈ [c])).
      by destruct Hc as [->| ->].
    - intros _. split; [split; exists c; by split|].
      simpl. by rewrite Hz.
    - intros _. constructor; [|constructor].
      destruct Hc as [->| ->]; ascii_class.
    - intros _. split_and!; (constructor; [|constructor]);
        destruct Hc as [->| ->]; ascii_class.
    - constructor; [|constructor]. intros E. apply Hleft.
      destruct Hc as [->| ->]; [done|]. revert E. ascii_class. }
  right. rewrite HR at 1 2. rewrite HL at 1.
  change (txt "(") with [40]. change (txt ")") with [41].
  split_and!.
  - apply Hsettled; [by left|]. by intros _.
  - apply Hsettled; [by right|]. intros [=].
  - rewrite HR. change (txt ")") with [41]. constructor; [|constructor]. done.
Qed.
End idempotence.

(** The amended claim at the configuration of [test_bracket_preference],
    whose replacements are ">" and "<", on the text "(foo)". *)
Lemma process_string_idempotent_witness :
  (unicode_normalization_mode CONFIG_BRACKET_PREFERENCE = None ∧
   @stable_brackets basic_latin CONFIG_BRACKET_PREFERENCE) ∧
  ∃ r, @_process_string basic_latin CONFIG_BRACKET_PREFERENCE None
         (txt "(foo)") = Ok r ∧
       @_process_string basic_latin CONFIG_BRACKET_PREFERENCE None r = Ok r.
Proof.
  assert (Hb : @stable_brackets basic_latin CONFIG_BRACKET_PREFERENCE).
  { right.
    assert (Hs : ∀ c, c = 62 ∨ c = 60 →
              @settled basic_latin CONFIG_BRACKET_PREFERENCE [c]).
    { intros c Hc. split_and!; try (intros [=]).
      - apply (bool_decide_eq_false_1 (backslash ∈ [c])).
        by destruct Hc as [->| ->].
      - constructor; [|constructor].
        destruct Hc as [->| ->]; intros [=]. }
    split_and!; [apply Hs; by left | apply Hs; by right |].
    constructor; [|constructor]. intros [=]. }
  split; [by split|].
  exact (@process_string_idempotent basic_latin CONFIG_BRACKET_PREFERENCE
           (txt "(foo)") eq_refl Hb).
Defined.

(** *** Basic Latin text is processed the same under every [Externals] *)

Abbreviation ascii_text s := (forallb is_ascii s = true).

Lemma sub_each_ext p q r s :
  (∀ c, is_ascii c = true → p c = q c) →
  ascii_text s → sub_each p r s = sub_each q r s.
Proof.
  intros Hpq. induction s as [|c s IH]; simpl; [done|].
  intros [Hc Hs]%andb_true_iff. by rewrite (Hpq c Hc), IH.
Qed.

Lemma sub_each_ascii p r s :
  ascii_text r → ascii_text s → ascii_text (sub_each p r s).
Proof.
  intros Hr. induction s as [|c s IH]; simpl; [done|].
  intros [Hc Hs]%andb_true_iff. rewrite forallb_app, (IH Hs), andb_true_r.
  destruct (p c); [done|]. simpl. by rewrite Hc.
Qed.

Lemma sub_runs_ext p q r b s :
  (∀ c, is_ascii c = true → p c = q c) →
  ascii_text s → sub_runs p r b s = sub_runs q r b s.
Proof.
  intros Hpq. revert b. induction s as [|c s IH]; intros b; simpl; [done|].
  intros [Hc Hs]%andb_true_iff. rewrite (Hpq c Hc).
  by rewrite !(IH _ Hs).
Qed.

Lemma sub_runs_ascii p r b s :
  ascii_text r → ascii_text s → ascii_text (sub_runs p r b s).
Proof.
  intros Hr. revert b. induction s as [|c s IH]; intros b; simpl; [done|].
  intros [Hc Hs]%andb_true_iff.
  destruct (p c); [destruct b|]; simpl;
    rewrite ?forallb_app, ?Hr, ?Hc; simpl; by apply IH.
Qed.

Section ascii_agreement.
Context (U : Externals).

Ltac class_agrees :=
  intros c Hc;
  unfold in_Z, in_Pd, in_Pi_Pf, in_Ps, in_Pe, in_C;
  by rewrite (@category_ascii U c Hc), (@category_ascii basic_latin c Hc).

Lemma in_Z_ascii c : is_ascii c = true → @in_Z U c = @in_Z basic_latin c.
Proof. revert c. class_agrees. Qed.
Lemma in_Pd_ascii c : is_ascii c = true → @in_Pd U c = @in_Pd basic_latin c.
Proof. revert c. class_agrees. Qed.
Lemma in_Pi_Pf_ascii c :
  is_ascii c = true → @in_Pi_Pf U c = @in_Pi_Pf basic_latin c.
Proof. revert c. class_agrees. Qed.
Lemma in_Ps_ascii c : is_ascii c = true → @in_Ps U c = @in_Ps basic_latin c.
Proof. revert c. class_agrees. Qed.
Lemma in_Pe_ascii c : is_ascii c = true → @in_Pe U c = @in_Pe basic_latin c.
Proof. revert c. class_agrees. Qed.
Lemma in_C_ascii c : is_ascii c = true → @in_C U c = @in_C basic_latin c.
Proof. revert c. class_agrees. Qed.

(** Without a decoder, on Basic Latin text and with literal Basic Latin
    brackets, the result does not depend on the Unicode data beyond Basic
    Latin. *)
Lemma process_string_ascii cfg T :
  ascii_text T →
  ascii_text (left_bracket cfg) → ascii_text (right_bracket cfg) →
  backslash ∉ left_bracket cfg → backslash ∉ right_bracket cfg →
  @_process_string U cfg None T = @_process_string basic_latin cfg None T.
Proof.
  intros HT Hl Hr Hbl Hbr. unfold _process_string.
  set (s1 := if simplify_whitespace cfg then _ else T).
  set (s1' := if simplify_whitespace cfg then _ else T).
  assert (s1 = s1' ∧ ascii_text s1') as [-> H1].
  { subst s1 s1'. destruct (simplify_whitespace cfg); [|done].
    split; [by apply sub_runs_ext, HT; apply in_Z_ascii|].
    by apply sub_runs_ascii. }
  set (s2 := if simplify_hyphens cfg then _ else s1').
  set (s2' := if simplify_hyphens cfg then _ else s1').
  assert (s2 = s2' ∧ ascii_text s2') as [-> H2].
  { subst s2 s2'. destruct (simplify_hyphens cfg); [|done].
    split; [by apply sub_each_ext, H1; apply in_Pd_ascii|].
    by apply sub_each_ascii. }
  set (s3 := if simplify_curly_quotes cfg then _ else s2').
  set (s3' := if simplify_curly_quotes cfg then _ else s2').
  assert (s3 = s3' ∧ ascii_text s3') as [-> H3].
  { subst s3 s3'. destruct (simplify_curly_quotes cfg); [|done].
    assert (ascii_text (sub_each double_quote_like [quotation_mark]
              (sub_each single_quote_like [apostrophe] s2'))) as Hq
      by (by repeat apply sub_each_ascii).
    split; [by apply sub_each_ext, Hq; apply in_Pi_Pf_ascii|].
    by apply sub_each_ascii. }
  set (r4 := if simplify_brackets cfg then _ else Ok s3').
  set (r4' := if simplify_brackets cfg then _ else Ok s3').
  assert (r4 = r4' ∧ ∃ s4, r4' = Ok s4 ∧ ascii_text s4) as [-> (s4 & -> & H4)].
  { subst r4 r4'. destruct (simplify_brackets cfg); [|by eauto].
    rewrite !sub_template_literal by done. simpl.
    rewrite !sub_template_literal by done.
    assert (ascii_text (sub_each (@in_Ps basic_latin) (left_bracket cfg) s3'))
      as Hb by (by apply sub_each_ascii).
    rewrite (sub_each_ext (@in_Ps U) (@in_Ps basic_latin))
      by (done || apply in_Ps_ascii).
    rewrite (sub_each_ext (@in_Pe U) (@in_Pe basic_latin))
      by (done || apply in_Pe_ascii).
    split; [done|]. eexists. split; [done|]. by apply sub_each_ascii. }
  simpl. destruct (unicode_normalization_mode cfg) as [m|]; [|done].
  rewrite (@normalize_ascii U) by done.
  by rewrite (sub_each_ext (@in_C U) (@in_C basic_latin))
    by (done || apply in_C_ascii).
Qed.
End ascii_agreement.

(** The default configuration is not idempotent on "a", space, tab, space,
    "b", whatever the data outside Basic Latin: the tab goes with the control
    characters after the spaces were collapsed, and the two spaces it
    leaves are collapsed by the second pass only. *)
Lemma default_twice_differs_everywhere (U : Externals) :
  @_process_string U CONFIG_DEFAULT None [97; 32; 9; 32; 98]
    = Ok [97; 32; 32; 98] ∧
  @_process_string U CONFIG_DEFAULT None [97; 32; 32; 98]
    = Ok [97; 32; 98].
Proof.
  split; (rewrite process_string_ascii;
    [ by vm_compute | by vm_compute.. | | ];
    apply (bool_decide_eq_false_1 (backslash ∈ _)); by vm_compute).
Qed.

(** So is a configuration that simplifies brackets only, and replaces the
    opening ones by two parentheses. *)
Lemma doubled_bracket_differs_everywhere (U : Externals) :
  @_process_string U CONFIG_DOUBLED_BRACKET None (txt "(") = Ok (txt "((") ∧
  @_process_string U CONFIG_DOUBLED_BRACKET None (txt "((") = Ok (txt "((((").
Proof.
  split; (rewrite process_string_ascii;
    [ by vm_compute | by vm_compute.. | | ];
    apply (bool_decide_eq_false_1 (backslash ∈ _)); by vm_compute).
Qed.

(** C5 fails as stated: under the default configuration, and under one that
    simplifies only brackets with "((" for the opening ones, a second pass
    changes the result of the first. *)
Lemma process_string_twice_differs :
  (@_process_string basic_latin CONFIG_DEFAULT None [97; 32; 9; 32; 98]
     ≫= @_process_string basic_latin CONFIG_DEFAULT None) = Ok [97; 32; 98] ∧
  @_process_string basic_latin CONFIG_DEFAULT None [97; 32; 9; 32; 98]
     = Ok [97; 32; 32; 98] ∧
  (@_process_string basic_latin CONFIG_DOUBLED_BRACKET None (txt "(")
     ≫= @_process_string basic_latin CONFIG_DOUBLED_BRACKET None)
     = Ok (txt "((((") ∧
  @_process_string basic_latin CONFIG_DOUBLED_BRACKET None (txt "(")
     = Ok (txt "((").
Proof. by vm_compute. Qed.


(** ** Computations *)

Lemma bind_ok {A B} (m : M A) (f : A → M B) w w' a :
  m w = (w', Ok a) → (m ≫= f) w = f a w'.
Proof. intros Hm. unfold mbind, M_bind. by rewrite Hm. Qed.

Lemma bind_raise {A B} (m : M A) (f : A → M B) w w' e :
  m w = (w', Raise e) → (m ≫= f) w = (w', Raise e).
Proof. intros Hm. unfold mbind, M_bind. by rewrite Hm. Qed.

Lemma with_join_phrases_id w : with_join_phrases w (track_join_phrases w) = w.
Proof. by destruct w. Qed.

(** ** Feature-phrase tracker: capture *)

Lemma next_filter_str credits :
  next (filter_str credits) =
    match first_join_phrase credits with
    | Some s => Ok s
    | None => Raise StopIteration
    end.
Proof.
  induction credits as [|[s|name] credits IH]; simpl; [done..|].
  exact IH.
Qed.

(** What [_mb_track_extract] does, in one equation. *)
Lemma mb_track_extract_run data w :
  _mb_track_extract data w =
    (match captured data with
     | Some (id, jp) =>
         with_join_phrases w (<[id := jp]> (track_join_phrases w))
     | None => w
     end, Ok tt).
Proof.
  unfold _mb_track_extract, captured, try_except, mbind, M_bind, lift,
    join_phrases_setitem, mret, M_ret.
  destruct data as [[credits|] rid]; simpl; [|done].
  rewrite next_filter_str.
  destruct (first_join_phrase credits) as [[|c jp]|]; simpl;
    by destruct rid.
Qed.

(** C7 fails as stated: the first plain string of this payload exists and
    the payload has an identifier, yet nothing is stored under it, because
    the string is empty. *)
Lemma mb_track_extract_skips_empty_phrase :
  (∃ credits, artist_credit payload_empty_phrase = Some credits ∧
              first_join_phrase credits = Some []) ∧
  recording_id payload_empty_phrase = Some (txt "mocktrack") ∧
  track_join_phrases (_mb_track_extract payload_empty_phrase empty_world).1
    !! txt "mocktrack" ≠ Some [].
Proof. split; [by eexists | split; [done|]]. by vm_compute. Qed.

(** C7, amended: [_mb_track_extract] never raises; when the first plain
    string of the artist credit is not empty and the payload has an
    identifier, it is stored under the identifier and nothing else changes;
    when the credit or the identifier is missing, or there is no plain
    string, or the first one is empty, the world is left as it was. *)
Theorem mb_track_extract_captures (data : payload) (w : world) :
  (∃ w', _mb_track_extract data w = (w', Ok tt)) ∧
  (∀ credits jp id,
     artist_credit data = Some credits →
     first_join_phrase credits = Some jp → jp ≠ [] →
     recording_id data = Some id →
     _mb_track_extract data w =
       (with_join_phrases w (<[id := jp]> (track_join_phrases w)), Ok tt)) ∧
  (artist_credit data = None ∨
   recording_id data = None ∨
   (∃ credits, artist_credit data = Some credits ∧
               (first_join_phrase credits = None ∨
                first_join_phrase credits = Some [])) →
   _mb_track_extract data w = (w, Ok tt)).
Proof.
  rewrite mb_track_extract_run. unfold captured.
  destruct data as [[credits|] [id|]]; simpl;
    try (split_and!; [by eexists | by intros | done]).
  destruct (first_join_phrase credits) as [[|c jp]|] eqn:Hf.
  - split_and!; [by eexists | intros; by simplify_eq | done].
  - split_and!; [by eexists | intros; by simplify_eq |].
    intros [?|[?|(credits' & ? & [?|?])]]; by simplify_eq.
  - split_and!; [by eexists | intros; by simplify_eq | done].
Qed.

(** The amended C7 at the payload of [test_drop_feats]. *)
Lemma mb_track_extract_captures_feat :
  _mb_track_extract payload_feat empty_world =
    (with_join_phrases empty_world {[ txt "mocktrack" := txt " feat. " ]},
     Ok tt).
Proof.
  apply (proj1 (proj2 (mb_track_extract_captures payload_feat empty_world))
           _ (txt " feat. ") (txt "mocktrack") eq_refl eq_refl); done.
Defined.


(** ** [str.split] and the first occurrence *)

Lemma split_head sep cur s :
  list_getitem0 (split_aux sep 0 cur s) = Ok (rev cur ++ before_first sep s).
Proof.
  revert cur. induction s as [|c s IH]; intros cur; simpl.
  - by rewrite app_nil_r.
  - case_bool_decide; simpl; [by rewrite app_nil_r|].
    rewrite IH. simpl. by rewrite <- app_assoc.
Qed.

Lemma before_first_prefix sep s : before_first sep s `prefix_of` s.
Proof.
  induction s as [|c s IH]; simpl; [done|].
  case_bool_decide; [apply prefix_nil|]. by apply prefix_cons.
Qed.

Lemma before_first_idempotent sep s :
  before_first sep (before_first sep s) = before_first sep s.
Proof.
  induction s as [|c s IH]; simpl; [done|].
  case_bool_decide as Hp; simpl; [done|].
  rewrite IH. case_bool_decide as Hp'; [|done].
  destruct Hp. etrans; [exact Hp'|].
  apply prefix_cons, before_first_prefix.
Qed.



(** An occurrence has a first one. *)
Lemma occurs_first P V : occurs P V → ∃ i, first_occurrence P V i.
Proof.
  induction V as [|c V IH]; intros [i Hi].
  - exists 0%nat. split; [|lia]. unfold occurs_at in *.
    by rewrite drop_nil in Hi.
  - destruct (decide (P `prefix_of` c :: V)) as [Hp|Hp].
    { exists 0%nat. split; [done|lia]. }
    destruct i as [|i]; [done|].
    destruct IH as (i' & Hi' & Hfirst); [by exists i|].
    exists (S i'). split; [done|].
    intros [|j] Hj; [done|]. apply (Hfirst j). lia.
Qed.

(** ** Attribute writes *)

Lemma obj_at_write w l k v l' :
  obj_at (write_attr w l k v) l' =
    if decide (l = l') then set_attr (obj_at w l) k v else obj_at w l'.
Proof.
  unfold write_attr, setattr, obj_at. simpl.
  rewrite lookup_insert. by case_decide; subst.
Qed.

Lemma attrs_write w l k v k' :
  attrs (obj_at (write_attr w l k v) l) !! k' =
    if decide (k = k') then Some v else attrs (obj_at w l) !! k'.
Proof.
  rewrite obj_at_write, decide_True by done. simpl.
  rewrite lookup_insert. by case_decide.
Qed.


(** ** Feature-phrase tracker: scrub *)

Section scrub.
Context (info : loc) (P : text).

Lemma scrub_field_absent key w :
  attrs (obj_at w info) !! key = None →
  scrub_field info P key w = (w, Ok tt).
Proof.
  intros Hk. unfold scrub_field, hasattr, mbind, M_bind. rewrite Hk.
  rewrite bool_decide_eq_false_2; [done|]. by intros [? ?].
Qed.

Lemma scrub_field_present key w V :
  P ≠ [] →
  attrs (obj_at w info) !! key = Some (VStr V) →
  scrub_field info P key w =
    (write_attr w info key (VStr (before_first P V)), Ok tt).
Proof.
  intros HP Hk. unfold scrub_field, hasattr, getattr, mbind, M_bind, lift.
  rewrite Hk. rewrite bool_decide_eq_true_2 by eauto. cbn [negb].
  rewrite Hk. unfold str_split. rewrite bool_decide_eq_false_2 by done.
  simpl. by rewrite split_head.
Qed.

Lemma scrub_field_not_string key w v :
  attrs (obj_at w info) !! key = Some v →
  (∀ V, v ≠ VStr V) →
  scrub_field info P key w = (w, Raise AttributeError).
Proof.
  intros Hk Hv. unfold scrub_field, hasattr, getattr, mbind, M_bind, lift.
  rewrite Hk. rewrite bool_decide_eq_true_2 by eauto. cbn [negb].
  rewrite Hk. destruct v; try done. by destruct (Hv s).
Qed.

(** The loop over the fields leaves the table alone, whether it ends or
    raises. *)
Lemma scrub_fields_table fields w :
  track_join_phrases (for_each fields (scrub_field info P) w).1
    = track_join_phrases w.
Proof.
  revert w. induction fields as [|key fields IH]; intros w; simpl; [done|].
  unfold mbind, M_bind.
  destruct (scrub_field info P key w) as [w1 [[]|e]] eqn:Hstep.
  - rewrite IH.
    revert Hstep. unfold scrub_field, hasattr, getattr, mbind, M_bind, lift.
    destruct (bool_decide _); simpl; [|by intros [= <-]].
    destruct (attrs (obj_at w info) !! key) as [v|]; [|by intros [= <-]].
    destruct (str_split v P) as [parts|]; simpl; [|by intros [= <-]].
    destruct (list_getitem0 parts); simpl; by intros [= <-].
  - simpl.
    revert Hstep. unfold scrub_field, hasattr, getattr, mbind, M_bind, lift.
    destruct (bool_decide _); simpl; [|by intros [= <-]].
    destruct (attrs (obj_at w info) !! key) as [v|]; [|by intros [= <-]].
    destruct (str_split v P) as [parts|]; simpl; [|by intros [= <-]].
    destruct (list_getitem0 parts); simpl; by intros [= <-].
Qed.

(** When the fields of the list that the track has all hold strings, the
    loop ends, having cut each of them at the join phrase and touched no
    other attribute of the track. *)
Lemma scrub_fields_ok fields w :
  P ≠ [] →
  (∀ key v, key ∈ fields → attrs (obj_at w info) !! key = Some v →
            ∃ V, v = VStr V) →
  ∃ w', for_each fields (scrub_field info P) w = (w', Ok tt) ∧
    ∀ key, attrs (obj_at w' info) !! key =
      if bool_decide (key ∈ fields)
      then truncate P <$> attrs (obj_at w info) !! key
      else attrs (obj_at w info) !! key.
Proof.
  intros HP. revert w.
  induction fields as [|k fields IH]; intros w Hstr; cbn [for_each].
  { exists w. split; [done|]. intros key.
    case_bool_decide as Hin; [by apply elem_of_nil in Hin | done]. }
  destruct (attrs (obj_at w info) !! k) as [v|] eqn:Hk.
  - destruct (Hstr k v) as [V ->]; [by left | done |].
    destruct (IH (write_attr w info k (VStr (before_first P V))))
      as (w' & Hrun & Hattrs).
    { intros key v Hin. rewrite attrs_write. case_decide; [by intros [= <-]; eauto|].
      apply Hstr. by right. }
    exists w'. split.
    { erewrite bind_ok; [exact Hrun|]. by apply scrub_field_present. }
    intros key. rewrite Hattrs, attrs_write.
    destruct (decide (k = key)) as [<-|Hne].
    + rewrite (bool_decide_eq_true_2 (k ∈ k :: fields)) by by left.
      rewrite Hk. simpl. case_bool_decide; [|done].
      by rewrite before_first_idempotent.
    + case_bool_decide as Hin.
      * by rewrite bool_decide_eq_true_2 by by right.
      * rewrite bool_decide_eq_false_2; [done|].
        by intros [?|?]%elem_of_cons.
  - destruct (IH w) as (w' & Hrun & Hattrs).
    { intros key v Hin. apply Hstr. by right. }
    exists w'. split.
    { erewrite bind_ok; [exact Hrun|]. by apply scrub_field_absent. }
    intros key. rewrite Hattrs.
    destruct (decide (k = key)) as [<-|Hne].
    + rewrite Hk. by repeat case_bool_decide.
    + case_bool_decide as Hin.
      * by rewrite bool_decide_eq_true_2 by by right.
      * rewrite bool_decide_eq_false_2; [done|].
        by intros [?|?]%elem_of_cons.
Qed.
End scrub.

Section scrub_track.
Context (cfg : config).

Lemma scrub_known info w id P :
  attrs (obj_at w info) !! "track_id" = Some (VStr id) →
  track_join_phrases w !! id = Some P →
  _scrub_track_feats cfg info w =
    for_each (drop_feats_from_fields cfg) (scrub_field info P)
      (with_join_phrases w (delete id (track_join_phrases w))).
Proof.
  intros Hid HP.
  unfold _scrub_track_feats, getattr, join_phrases_contains,
    join_phrases_pop, mbind, M_bind.
  rewrite Hid. simpl. rewrite HP.
  rewrite bool_decide_eq_true_2 by eauto.
  by rewrite Hid, HP.
Qed.

Lemma scrub_unknown info w id :
  attrs (obj_at w info) !! "track_id" = Some (VStr id) →
  track_join_phrases w !! id = None →
  _scrub_track_feats cfg info w = (w, Ok tt).
Proof.
  intros Hid HP.
  unfold _scrub_track_feats, getattr, join_phrases_contains, mbind, M_bind.
  rewrite Hid. simpl. rewrite HP.
  rewrite bool_decide_eq_false_2; [done|]. by intros [? ?].
Qed.
End scrub_track.




(** C2: a capture for an identifier that already has an entry replaces the
    phrase and adds no entry; a scrub for an identifier with an entry
    removes exactly that entry, whether it ends or raises; and after it any
    scrub for the same identifier changes nothing and ends normally. *)
Theorem join_phrase_consumed_once cfg :
  (∀ d1 d2 w id jp1 jp2,
     captured d1 = Some (id, jp1) → captured d2 = Some (id, jp2) →
     let w1 := (_mb_track_extract d1 w).1 in
     let w2 := (_mb_track_extract d2 w1).1 in
     track_join_phrases w1 !! id = Some jp1 ∧
     track_join_phrases w2 !! id = Some jp2 ∧
     dom (track_join_phrases w2) = dom (track_join_phrases w1)) ∧
  (∀ w info id jp,
     attrs (obj_at w info) !! "track_id" = Some (VStr id) →
     track_join_phrases w !! id = Some jp →
     let w1 := (_scrub_track_feats cfg info w).1 in
     track_join_phrases w1 = delete id (track_join_phrases w) ∧
     ∀ info',
       attrs (obj_at w1 info') !! "track_id" = Some (VStr id) →
       _scrub_track_feats cfg info' w1 = (w1, Ok tt)).
Proof.
  split.
  - intros d1 d2 w id jp1 jp2 H1 H2 w1 w2. subst w1 w2.
    rewrite !mb_track_extract_run, H1, H2. simpl.
    rewrite !lookup_insert_eq. split_and!; [done..|].
    by rewrite !dom_insert_L, (assoc_L (∪)), (idemp_L (∪)).
  - intros w info id jp Hid Hjp w1. subst w1.
    rewrite (scrub_known cfg info w id jp Hid Hjp).
    rewrite scrub_fields_table. simpl. split; [done|].
    intros info' Hid'. apply (scrub_unknown cfg info' _ id Hid').
    rewrite scrub_fields_table. simpl. apply lookup_delete_eq.
Qed.

(** C1 does not hold of [_scrub_track_feats]: under the default
    configuration the track of [test_drop_feats] has the captured phrase
    " feat. " for its recording, and its [title], a configured field,
    holds "foo feat. bar", where the phrase first stands at position 3.
    The scrub leaves the title as it is, not cut to "foo": it raises
    [AttributeError] at [artist_sort], which comes before [title] and
    holds [None]. *)
Lemma scrub_leaves_title_uncut :
  let r := _scrub_track_feats CONFIG_DEFAULT 1%nat world_feat in
  attrs (obj_at world_feat 1%nat) !! "track_id"%string
    = Some (VStr (txt "mocktrack")) ∧
  track_join_phrases world_feat !! txt "mocktrack" = Some (txt " feat. ") ∧
  "title"%string ∈ drop_feats_from_fields CONFIG_DEFAULT ∧
  attrs (obj_at world_feat 1%nat) !! "title"%string
    = Some (VStr (txt "foo feat. bar")) ∧
  first_occurrence (txt " feat. ") (txt "foo feat. bar") 3 ∧
  r.2 = Raise AttributeError ∧
  attrs (obj_at r.1 1%nat) !! "title"%string
    = Some (VStr (txt "foo feat. bar")) ∧
  attrs (obj_at r.1 1%nat) !! "title"%string
    ≠ Some (VStr (take 3 (txt "foo feat. bar"))).
Proof.
  split_and!.
  - vm_compute. reflexivity.
  - vm_compute. reflexivity.
  - apply (bool_decide_eq_true_1 (_ ∈ _)). vm_compute. reflexivity.
  - vm_compute. reflexivity.
  - split; [by exists (txt "bar")|].
    intros [|[|[|j]]] Hj [k Hk]; (lia || discriminate Hk).
  - vm_compute. reflexivity.
  - vm_compute. reflexivity.
  - vm_compute. intros [=].
Qed.

(** C6 does not hold of [_scrub_track_feats]: under the default
    configuration, the track of [test_drop_feats] has its [artist] cut,
    and then the [None] in [artist_sort] raises [AttributeError]; the entry
    of the recording is gone. *)
Lemma scrub_raises_on_none :
  let r := _scrub_track_feats CONFIG_DEFAULT 1%nat world_feat in
  r.2 = Raise AttributeError ∧
  attrs (obj_at r.1 1%nat) !! "artist"%string = Some (VStr (txt "foo")) ∧
  attrs (obj_at r.1 1%nat) !! "artist_sort"%string = Some VNone ∧
  track_join_phrases r.1 = ∅.
Proof. vm_compute. repeat split; reflexivity. Qed.

(** The field processor passes over the [None] that the scrub trips on:
    on the track of [world_feat] it ends normally and writes nothing. *)
Lemma process_object_passes_none :
  @_process_object basic_latin CONFIG_DEFAULT None 1%nat world_feat
    = (world_feat, Ok tt).
Proof. vm_compute. reflexivity. Qed.


(** ** Track arrival *)

(** C10: [_trackinfo_received] leaves the objects, the journal of writes,
    the join-phrase table and [pending_albums] as they were. A record with
    an index is passed over; a record without one is entered in
    [pending_tracks] under its identifier when that is truthy, and nothing
    else happens. Only a record lacking the attribute read raises. *)
Theorem trackinfo_received_frame info w :
  let r := _trackinfo_received info w in
  heap r.1 = heap w ∧
  writes r.1 = writes w ∧
  track_join_phrases r.1 = track_join_phrases w ∧
  pending_albums r.1 = pending_albums w ∧
  match attrs (obj_at w info) !! "index" with
  | None => r = (w, Raise AttributeError)
  | Some VNone =>
      match attrs (obj_at w info) !! "track_id" with
      | None => r = (w, Raise AttributeError)
      | Some id =>
          r.2 = Ok tt ∧
          pending_tracks r.1 =
            if truthy id then <[id := info]> (pending_tracks w)
            else pending_tracks w
      end
  | Some _ => r = (w, Ok tt)
  end.
Proof.
  unfold _trackinfo_received, getattr, pending_tracks_setitem, mbind, M_bind.
  destruct (attrs (obj_at w info) !! "index") as [[| |]|]; simpl; try done.
  destruct (attrs (obj_at w info) !! "track_id") as [id|]; simpl; [|done].
  by destruct (truthy id).
Qed.

(** ** Field processor *)

Lemma journal_extend_nil w : journal_extend w [] = w.
Proof. destruct w. unfold journal_extend. simpl. by rewrite app_nil_r. Qed.

Lemma journal_extend_app w new new' :
  journal_extend (journal_extend w new) new' = journal_extend w (new ++ new').
Proof.
  unfold journal_extend, replay. simpl. by rewrite foldl_app, app_assoc.
Qed.

Lemma write_attr_journal w l k v : write_attr w l k v = journal_extend w [(l, k, v)].
Proof. done. Qed.

Lemma heap_obj_apply_write h wr l :
  heap_obj (apply_write h wr) l =
    if decide (wr.1.1 = l) then set_attr (heap_obj h l) wr.1.2 wr.2
    else heap_obj h l.
Proof.
  unfold apply_write, heap_obj at 1. rewrite lookup_insert.
  by case_decide; subst.
Qed.

Section field_processor.
Context `{Externals} (cfg : config) (decoder : option Unidecoder) (obj : loc).

(** One round of the loop either changes nothing or makes one justified
    write and goes on. *)
Lemma process_field_step field w :
  (process_field cfg decoder obj field w).1 = w ∨
  ∃ s clean,
    attrs (obj_at w obj) !! field = Some (VStr s) ∧
    _process_string cfg decoder s = Ok clean ∧
    clean ≠ s ∧
    process_field cfg decoder obj field w
      = (write_attr w obj field (VStr clean), Ok tt).
Proof.
  unfold process_field, hasattr, getattr, mbind, M_bind, lift.
  destruct (attrs (obj_at w obj) !! field) as [[| |s]|] eqn:Hk; simpl;
    rewrite ?bool_decide_eq_true_2 by eauto; simpl; rewrite ?Hk; simpl;
    try by left.
  destruct (_process_string cfg decoder s) as [clean|e] eqn:Hs; simpl;
    [|by left].
  case_bool_decide as Hne; [|by left].
  right. by exists s, clean.
Qed.

Lemma process_fields_journal fields w :
  (∀ k, k ∈ fields → k ∈ process_fields cfg) →
  ∃ new,
    (for_each fields (process_field cfg decoder obj) w).1
      = journal_extend w new ∧
    justified cfg decoder obj (heap w) new.
Proof.
  revert w. induction fields as [|k fields IH]; intros w Hin; simpl.
  { exists []. by rewrite journal_extend_nil. }
  unfold mbind, M_bind.
  destruct (process_field_step k w) as [Hsame|(s & clean & Hk & Hs & Hne & Hrun)].
  - destruct (process_field cfg decoder obj k w) as [w1 [[]|e]];
      simpl in Hsame; subst w1.
    + apply IH. intros k' ?. apply Hin. by right.
    + exists []. by rewrite journal_extend_nil.
  - rewrite Hrun.
    destruct (IH (write_attr w obj k (VStr clean))) as (new & Hnew & Hj).
    { intros k' ?. apply Hin. by right. }
    exists ((obj, k, VStr clean) :: new). split.
    + rewrite Hnew, write_attr_journal. apply journal_extend_app.
    + simpl. split_and!; [done | apply Hin; by left | by exists s, clean |].
      exact Hj.
Qed.

Lemma justified_other h new l :
  justified cfg decoder obj h new → l ≠ obj → replay new h !! l = h !! l.
Proof.
  revert h. induction new as [|wr new IH]; intros h; simpl; [done|].
  intros (Hobj & _ & _ & Hj) Hl. unfold replay in *. rewrite (IH _ Hj Hl).
  unfold apply_write. rewrite lookup_insert_ne; [done|]. congruence.
Qed.

Lemma justified_tracks h new :
  justified cfg decoder obj h new →
  tracks (heap_obj (replay new h) obj) = tracks (heap_obj h obj).
Proof.
  revert h. induction new as [|wr new IH]; intros h; simpl; [done|].
  intros (Hobj & _ & _ & Hj). unfold replay in *. rewrite (IH _ Hj).
  rewrite heap_obj_apply_write. by case_decide.
Qed.

(** An attribute that is no configured field, is missing, or holds no
    string is never written. *)
Lemma justified_skips h new k :
  justified cfg decoder obj h new →
  k ∉ process_fields cfg ∨
    attrs (heap_obj h obj) !! k = None ∨
    (∃ v, attrs (heap_obj h obj) !! k = Some v ∧ ∀ s, v ≠ VStr s) →
  attrs (heap_obj (replay new h) obj) !! k = attrs (heap_obj h obj) !! k.
Proof.
  revert h. induction new as [|[[l k'] v] new IH]; intros h; simpl; [done|].
  intros (-> & Hin & (s & clean & Hk' & _ & _ & ->) & Hj) Hk.
  assert (k' ≠ k) as Hne.
  { intros ->. destruct Hk as [?|[Hk|(v & Hk & Hv)]]; [done|congruence|].
    rewrite Hk' in Hk. injection Hk as <-. by destruct (Hv s). }
  assert (attrs (heap_obj (apply_write h (obj, k', VStr clean)) obj) !! k
          = attrs (heap_obj h obj) !! k) as Hstep.
  { rewrite heap_obj_apply_write. simpl. rewrite decide_True by done.
    simpl. by rewrite lookup_insert_ne. }
  unfold replay in *. simpl. rewrite IH; [done | done |].
  by rewrite Hstep.
Qed.

(** C9: [_process_object] writes only as the field processor may: every
    [setattr] it makes is on the object, to a configured field holding a
    string, of the sanitized string, and only when that differs from the
    string held; the heap changes by these writes and no others. The
    plugin's tables, the other objects, the track list, and every attribute
    that is no configured field, is missing or holds no string are as
    before. *)
Theorem process_object_frame w :
  let w' := (_process_object cfg decoder obj w).1 in
  (∃ new,
     writes w' = writes w ++ new ∧
     heap w' = replay new (heap w) ∧
     justified cfg decoder obj (heap w) new) ∧
  track_join_phrases w' = track_join_phrases w ∧
  pending_tracks w' = pending_tracks w ∧
  pending_albums w' = pending_albums w ∧
  (∀ l, l ≠ obj → heap w' !! l = heap w !! l) ∧
  tracks (obj_at w' obj) = tracks (obj_at w obj) ∧
  (∀ k,
     k ∉ process_fields cfg ∨
       attrs (obj_at w obj) !! k = None ∨
       (∃ v, attrs (obj_at w obj) !! k = Some v ∧ ∀ s, v ≠ VStr s) →
     attrs (obj_at w' obj) !! k = attrs (obj_at w obj) !! k).
Proof.
  intros w'. subst w'. unfold _process_object.
  destruct (process_fields_journal (process_fields cfg) w) as (new & -> & Hj);
    [done|].
  split_and!; try done.
  - by exists new.
  - intros l Hl. by apply justified_other.
  - by apply justified_tracks.
  - intros k Hk. by apply justified_skips.
Qed.
End field_processor.


(** ** Release arrival *)

Lemma run_all_app steps steps' w :
  run_all (steps ++ steps') w = (run_all steps;; run_all steps') w.
Proof.
  revert w. induction steps as [|m steps IH]; intros w; simpl; [done|].
  unfold mbind, M_bind.
  destruct (m w) as [w1 [[]|e]]; [|done]. apply IH.
Qed.

Section release.
Context `{Externals} (cfg : config).

Lemma process_track_steps decoder track w :
  process_track cfg decoder track w =
    run_all
      ((if bool_decide (drop_feats_from_fields cfg ≠ [])
        then [_scrub_track_feats cfg track] else [])
       ++ [_process_object cfg decoder track]) w.
Proof.
  unfold process_track. case_bool_decide; simpl; unfold mbind, M_bind, mret, M_ret.
  - destruct (_scrub_track_feats cfg track w) as [w1 [[]|e]]; [|done].
    by destruct (_process_object cfg decoder track w1) as [w2 [[]|e]].
  - by destruct (_process_object cfg decoder track w) as [w2 [[]|e]].
Qed.

Lemma for_each_tracks_steps decoder info tracks w :
  (for_each tracks (process_track cfg decoder);;
   _process_object cfg decoder info) w =
    run_all (release_schedule cfg decoder info tracks) w.
Proof.
  unfold release_schedule. revert w.
  induction tracks as [|track tracks IH]; intros w; simpl.
  - unfold mbind, M_bind, mret, M_ret.
    by destruct (_process_object cfg decoder info w) as [w1 [[]|e]].
  - rewrite <- app_assoc, run_all_app.
    unfold mbind, M_bind at 1 2 3. rewrite process_track_steps.
    destruct (run_all _ w) as [w1 [[]|e]]; [|done].
    apply IH.
Qed.

(** Release arrival reads the release's own [language] and [script],
    resolves one decoder from them, and then runs the schedule of the
    release with that decoder: track by track in the order of its track
    list, the scrub (only when fields to drop are configured) and then the
    field processor, and after the last track the field processor on the
    release itself. *)
Lemma albuminfo_received_schedule info w :
  _albuminfo_received cfg info w =
    (language ← getattr info "language";
     script ← getattr info "script";
     decoder ← lift (_get_decoder cfg language script);
     run_all (release_schedule cfg decoder info (tracks (obj_at w info)))) w.
Proof.
  unfold _albuminfo_received, getattr, get_tracks, lift.
  unfold mbind, M_bind at 1 2 3 4 6 7 8.
  destruct (attrs (obj_at w info) !! "language") as [language|]; [|done].
  destruct (attrs (obj_at w info) !! "script") as [script|]; [|done].
  destruct (_get_decoder cfg language script) as [decoder|e]; [|done].
  apply for_each_tracks_steps.
Qed.
End release.

(** C8 does not hold of [_albuminfo_received]: under the default
    configuration, on a release like that of [test_drop_feats], the scrub
    of the track cuts [artist] and then raises [AttributeError] at
    [artist_sort], which holds [None]. The handler ends there: the track
    is not field-processed (its title keeps the two spaces that the field
    processor, run on it, makes one), and the release is not
    field-processed either (nor is its artist). The only write is the cut
    of the track's artist. *)
Lemma albuminfo_received_aborts :
  let w := world_release_spaced in
  let r := @_albuminfo_received basic_latin CONFIG_DEFAULT 2%nat w in
  _get_decoder CONFIG_DEFAULT VNone VNone = Ok None ∧
  r.2 = Raise AttributeError ∧
  writes r.1 = [(1%nat, "artist"%string, VStr (txt "foo"))] ∧
  attrs (obj_at r.1 1%nat) !! "title"%string = Some (VStr (txt "foo  bar")) ∧
  attrs (obj_at (@_process_object basic_latin CONFIG_DEFAULT None 1%nat w).1
           1%nat) !! "title"%string = Some (VStr (txt "foo bar")) ∧
  attrs (obj_at r.1 2%nat) !! "artist"%string = Some (VStr (txt "foo  bar")) ∧
  attrs (obj_at (@_process_object basic_latin CONFIG_DEFAULT None 2%nat w).1
           2%nat) !! "artist"%string = Some (VStr (txt "foo bar")).
Proof. vm_compute. repeat split; reflexivity. Qed.

(** [test_drop_feats], as far as it concerns the handlers of the plugin:
    after the capture and the arrival of the release, the artist of the
    track is cut, its title is not, and the release keeps its fields. *)
Lemma drop_feats_scenario :
  let w1 := (_mb_track_extract payload_feat world_release).1 in
  let r := @_albuminfo_received basic_latin CONFIG_DROP_ARTIST 2%nat w1 in
  r.2 = Ok tt ∧
  attrs (obj_at r.1 1%nat) !! "artist"%string = Some (VStr (txt "foo")) ∧
  attrs (obj_at r.1 1%nat) !! "title"%string
    = Some (VStr (txt "foo feat. bar")) ∧
  attrs (obj_at r.1 2%nat) !! "artist"%string
    = Some (VStr (txt "foo feat. bar")) ∧
  writes r.1 = [(1%nat, "artist"%string, VStr (txt "foo"))] ∧
  track_join_phrases r.1 = ∅.
Proof. vm_compute. repeat split; reflexivity. Qed.


(** ** The table holds non-empty phrases only *)

(** [str.split] refuses the empty separator, so the scrub relies on what
    the capture stores: it stores non-empty phrases only, and the other
    handlers at most remove entries. *)

Lemma scrub_table_shrinks cfg info w :
  track_join_phrases (_scrub_track_feats cfg info w).1
    ⊆ track_join_phrases w.
Proof.
  destruct (attrs (obj_at w info) !! "track_id") as [v|] eqn:Hid.
  2: { unfold _scrub_track_feats, getattr, mbind, M_bind. by rewrite Hid. }
  destruct (dict_contains (track_join_phrases w) v) eqn:Hc.
  - destruct v as [| |id]; try done.
    apply bool_decide_eq_true in Hc as [P HP].
    rewrite (scrub_known cfg info w id P Hid HP), scrub_fields_table.
    apply delete_subseteq.
  - unfold _scrub_track_feats, getattr, join_phrases_contains, mbind, M_bind.
    rewrite Hid. simpl. by rewrite Hc.
Qed.

Lemma process_object_table `{Externals} cfg decoder obj w :
  track_join_phrases (_process_object cfg decoder obj w).1
    = track_join_phrases w.
Proof.
  unfold _process_object.
  by destruct (process_fields_journal cfg decoder obj (process_fields cfg) w)
    as (new & -> & _).
Qed.

Lemma run_all_table_shrinks steps w :
  Forall (λ m : M unit,
            ∀ w, track_join_phrases (m w).1 ⊆ track_join_phrases w) steps →
  track_join_phrases (run_all steps w).1 ⊆ track_join_phrases w.
Proof.
  intros Hsteps. revert w.
  induction Hsteps as [|m steps Hm _ IH]; intros w; simpl; [done|].
  unfold mbind, M_bind. specialize (Hm w).
  destruct (m w) as [w1 [[]|e]]; simpl in *; [|done].
  etrans; [apply IH | exact Hm].
Qed.

Lemma albuminfo_table_shrinks `{Externals} cfg info w :
  track_join_phrases (_albuminfo_received cfg info w).1
    ⊆ track_join_phrases w.
Proof.
  unfold _albuminfo_received, getattr, get_tracks, lift.
  unfold mbind, M_bind at 1 2 3 4.
  destruct (attrs (obj_at w info) !! "language") as [language|]; [|done].
  destruct (attrs (obj_at w info) !! "script") as [script|]; [|done].
  destruct (_get_decoder cfg language script) as [decoder|e]; [|done].
  rewrite for_each_tracks_steps. apply run_all_table_shrinks.
  unfold release_schedule. apply Forall_app. split.
  - apply Forall_flat_map, Forall_forall. intros track _.
    apply Forall_app. split.
    + case_bool_decide; constructor; [|constructor].
      intros w'. apply scrub_table_shrinks.
    + constructor; [|constructor]. intros w'. by rewrite process_object_table.
  - constructor; [|constructor]. intros w'. by rewrite process_object_table.
Qed.

Lemma phrases_nonempty_subseteq w w' :
  track_join_phrases w' ⊆ track_join_phrases w →
  phrases_nonempty w → phrases_nonempty w'.
Proof.
  intros Hsub Hw id P HP. apply (Hw id).
  by eapply lookup_weaken.
Qed.

(** X10: the table starts empty, and every handler keeps its phrases
    non-empty. *)
Lemma phrases_nonempty_invariant `{Externals} cfg :
  phrases_nonempty empty_world ∧
  (∀ data w, phrases_nonempty w →
             phrases_nonempty (_mb_track_extract data w).1) ∧
  (∀ info w, phrases_nonempty w →
             phrases_nonempty (_trackinfo_received info w).1) ∧
  (∀ info w, phrases_nonempty w →
             phrases_nonempty (_albuminfo_received cfg info w).1).
Proof.
  split_and!.
  - by intros id P.
  - intros data w Hw. rewrite mb_track_extract_run. unfold captured.
    destruct (artist_credit data) as [credits|]; [|done].
    destruct (recording_id data) as [id|]; [|done].
    destruct (first_join_phrase credits) as [[|c jp]|]; [done| |done].
    intros id' P. simpl. rewrite lookup_insert.
    case_decide; [by intros [= <-] | apply Hw].
  - intros info w. apply phrases_nonempty_subseteq.
    unfold _trackinfo_received, getattr, pending_tracks_setitem, mbind, M_bind.
    destruct (attrs (obj_at w info) !! "index") as [[| |]|]; simpl; try done.
    destruct (attrs (obj_at w info) !! "track_id") as [id|]; simpl; [|done].
    by destruct (truthy id).
  - intros info w. apply phrases_nonempty_subseteq, albuminfo_table_shrinks.
Qed.


(** * Further properties *)

(** ** Identifier resolver *)

Lemma get_decoder_by_script cfg lang script t :
  unresolved cfg lang → resolves cfg script t →
  _get_decoder cfg lang script = Ok (provide cfg (Some t)).
Proof.
  intros Hl Hs. rewrite get_decoder_second by done.
  unfold _get_decoder. cbn [truthy andb].
  rewrite (resolves_truthy _ _ _ Hs).
  rewrite (proj2 (resolves_contains cfg script)) by eauto.
  rewrite (resolves_getitem _ _ _ Hs). cbn. by case_bool_decide.
Qed.

Lemma resolves_or_not cfg v : (∃ t, resolves cfg v t) ∨ unresolved cfg v.
Proof.
  destruct (dict_contains (lang_map cfg) v) eqn:Hc.
  - left. by apply resolves_contains.
  - right. intros t Ht.
    rewrite (proj2 (resolves_contains cfg v)) in Hc; [done | eauto].
Qed.

(** X1: a decoder that [_get_decoder] returns is for an enabled language, and
    that language is what the language code maps to, or, when the language
    code maps to nothing, what the script code maps to. A disabled target
    of the language code is not made up for by the script. *)
Theorem get_decoder_only_enabled cfg lang script d :
  _get_decoder cfg lang script = Ok (Some d) →
  decoder_lang d ∈ langs_enabled cfg ∧
  (resolves cfg lang (decoder_lang d) ∨
   (unresolved cfg lang ∧ resolves cfg script (decoder_lang d))).
Proof.
  assert (Hprov : ∀ t, provide cfg (Some t) = Some d →
            decoder_lang d = t ∧ t ∈ langs_enabled cfg).
  { intros t. unfold provide. case_bool_decide; [|done]. by intros [= <-]. }
  destruct (resolves_or_not cfg lang) as [[t Ht]|Hl].
  - rewrite (get_decoder_first _ _ _ _ Ht). intros [= Hd].
    destruct (Hprov _ Hd) as [-> ?]. by split; [|left].
  - destruct (resolves_or_not cfg script) as [[t Ht]|Hs].
    + rewrite (get_decoder_by_script _ _ _ _ Hl Ht). intros [= Hd].
      destruct (Hprov _ Hd) as [-> ?]. by split; [|right].
    + rewrite get_decoder_second, get_decoder_neither by done. done.
Qed.

(** At the release of [test_album_hook]: language "jpn", script "Jpan". *)
Lemma get_decoder_only_enabled_witness :
  _get_decoder CONFIG_DEFAULT (VStr (txt "jpn")) (VStr (txt "Jpan"))
    = Ok (Some {| decoder_lang := ja |}) ∧
  ja ∈ langs_enabled CONFIG_DEFAULT.
Proof.
  assert (H : _get_decoder CONFIG_DEFAULT (VStr (txt "jpn")) (VStr (txt "Jpan"))
            = Ok (Some {| decoder_lang := ja |})) by (vm_compute; reflexivity).
  split; [exact H|].
  exact (proj1 (get_decoder_only_enabled CONFIG_DEFAULT _ _ _ H)).
Defined.

Transparent lang_map.

Lemma lang_map_split cfg :
  lang_map cfg =
    <[txt "Hani" := han_preference cfg]> (list_to_map lang_map_fixed).
Proof. reflexivity. Qed.

Opaque lang_map.

Lemma lang_map_other cfg cfg' s :
  s ≠ txt "Hani" → lang_map cfg !! s = lang_map cfg' !! s.
Proof.
  intros Hs. rewrite !lang_map_split. by rewrite !lookup_insert_ne.
Qed.

(** X2: the Han preference bears on the code "Hani" alone: two configurations
    that enable the same languages resolve every other pair of codes to the
    same decoder. *)
Theorem han_preference_only_hani cfg cfg' lang script :
  langs_enabled cfg = langs_enabled cfg' →
  lang ≠ VStr (txt "Hani") → script ≠ VStr (txt "Hani") →
  _get_decoder cfg lang script = _get_decoder cfg' lang script.
Proof.
  intros Hen Hl Hs.
  assert (Hc : ∀ v, v ≠ VStr (txt "Hani") →
            dict_contains (lang_map cfg) v = dict_contains (lang_map cfg') v
            ∧ dict_getitem (lang_map cfg) v = dict_getitem (lang_map cfg') v).
  { intros [| |s] Hv; try done. unfold dict_contains, dict_getitem.
    rewrite (lang_map_other cfg cfg' s); [done|]. congruence. }
  unfold _get_decoder.
  destruct (Hc lang Hl) as [-> ->], (Hc script Hs) as [-> ->].
  by rewrite Hen.
Qed.

(** The default configuration and the same with Japanese preferred agree on
    a release in Korean. *)
Lemma han_preference_only_hani_witness :
  _get_decoder CONFIG_DEFAULT (VStr (txt "kor")) (VStr (txt "Kore"))
    = _get_decoder CONFIG_PREFER_JA (VStr (txt "kor")) (VStr (txt "Kore")).
Proof.
  apply (han_preference_only_hani CONFIG_DEFAULT CONFIG_PREFER_JA);
    [reflexivity | discriminate | discriminate].
Defined.


(** ** Text sanitizer *)

(** The text of [test_strip] under the defaults. *)
Lemma process_string_trimmed_witness :
  @_process_string basic_latin CONFIG_DEFAULT None (txt " hi ")
    = Ok (txt "hi") ∧
  head_nonspace (txt "hi") ∧ head_nonspace (rev (txt "hi")).
Proof.
  assert (H : @_process_string basic_latin CONFIG_DEFAULT None (txt " hi ")
            = Ok (txt "hi")) by (vm_compute; reflexivity).
  split; [exact H|].
  exact (@process_string_trimmed basic_latin CONFIG_DEFAULT None _ _ H).
Defined.

Lemma sub_each_deletes p s : Forall (λ c, p c = false) (sub_each p [] s).
Proof.
  induction s as [|c s IH]; simpl; [constructor|].
  destruct (p c) eqn:E; simpl; [done | by constructor].
Qed.

Lemma strip_Forall (P : N → Prop) s : Forall P s → Forall P (strip s).
Proof.
  destruct (strip_infix s) as (k1 & k2 & Hs). intros HF.
  rewrite Hs in HF. by apply Forall_infix in HF.
Qed.

(** X4: with a normalisation mode set, whatever the other settings and the
    decoder, the text returned holds no character of the classes Cc, Cf,
    Cs, Co and Cn: tabs and line breaks inside a field are deleted, not
    turned into spaces. *)
Theorem process_string_no_control `{Externals} cfg decoder mode T r :
  unicode_normalization_mode cfg = Some mode →
  _process_string cfg decoder T = Ok r →
  Forall (λ c, in_C c = false) r.
Proof.
  intros Hm. unfold _process_string. rewrite Hm.
  destruct (if simplify_brackets cfg then _ else _) as [s|e]; simpl;
    [|done].
  intros [= <-]. apply strip_Forall, sub_each_deletes.
Qed.

(** Under the defaults, "a", tab, "b" comes out as "ab". *)
Lemma process_string_no_control_witness :
  unicode_normalization_mode CONFIG_DEFAULT = Some NFC ∧
  @_process_string basic_latin CONFIG_DEFAULT None [97; 9; 98]
    = Ok (txt "ab") ∧
  Forall (λ c, @in_C basic_latin c = false) (txt "ab").
Proof.
  assert (H : @_process_string basic_latin CONFIG_DEFAULT None [97; 9; 98]
            = Ok (txt "ab")) by (vm_compute; reflexivity).
  split; [reflexivity|]. split; [exact H|].
  exact (@process_string_no_control basic_latin CONFIG_DEFAULT None NFC
           _ _ eq_refl H).
Defined.

(** X5: without decoder and normalisation, and with the default brackets when
    brackets are simplified, the text returned has the shape each enabled
    substitution aims at: every separator is a single space with no
    separator next to it, every dash is a hyphen-minus, no character of the
    two quote lists or of the classes Pi and Pf is left, every opening
    bracket is "(" and every closing one ")". *)
Theorem process_string_shape `{Externals} cfg T r :
  unicode_normalization_mode cfg = None →
  simplify_brackets cfg = false ∨
    (left_bracket cfg = txt "(" ∧ right_bracket cfg = txt ")") →
  _process_string cfg None T = Ok r →
  (simplify_whitespace cfg = true → run_free in_Z space false r = true) ∧
  (simplify_hyphens cfg = true → Forall (fixed_by in_Pd hyphen_minus) r) ∧
  (simplify_curly_quotes cfg = true →
     Forall (λ c, single_quote_like c = false ∧
                  double_quote_like c = false ∧
                  in_Pi_Pf c = false) r) ∧
  (simplify_brackets cfg = true →
     Forall (fixed_by in_Ps 40) r ∧ Forall (fixed_by in_Pe 41) r).
Proof.
  intros Hn Hb. rewrite process_string_as_pipeline by done. intros Hr.
  assert (Hr' : strip (pipeline (cleanup_stages cfg 40 41) T) = r)
    by congruence.
  pose proof (compatible_strip _ _ (cleanup_stages_compatible cfg)
                (pipeline_shapes _ T (cleanup_stages_compatible cfg))) as HF.
  rewrite Hr' in HF. clear Hr Hr'. unfold cleanup_stages in HF.
  apply Forall_cons in HF as [Hw HF]. apply Forall_cons in HF as [Hh HF].
  apply Forall_cons in HF as [Hq1 HF]. apply Forall_cons in HF as [Hq2 HF].
  apply Forall_cons in HF as [Hq3 HF]. apply Forall_cons in HF as [Hb1 HF].
  apply Forall_cons in HF as [Hb2 _].
  split_and!.
  - intros E. rewrite E in Hw. exact Hw.
  - intros E. rewrite E in Hh. exact Hh.
  - intros E. rewrite E in Hq1, Hq2, Hq3. simpl in Hq1, Hq2, Hq3.
    apply Forall_forall. intros c Hc.
    rewrite Forall_forall in Hq1, Hq2, Hq3.
    specialize (Hq1 c Hc). specialize (Hq2 c Hc). specialize (Hq3 c Hc).
    split_and!.
    + destruct (single_quote_like c) eqn:E1; [|done].
      rewrite (Hq1 E1) in E1. by vm_compute in E1.
    + destruct (double_quote_like c) eqn:E2; [|done].
      rewrite (Hq2 E2) in E2. by vm_compute in E2.
    + destruct (in_Pi_Pf c) eqn:E3; [|done].
      rewrite (Hq3 E3) in E3. unfold in_Pi_Pf in E3.
      rewrite category_ascii in E3 by reflexivity. by vm_compute in E3.
  - intros E. rewrite E in Hb1, Hb2. split; [exact Hb1 | exact Hb2].
Qed.

(** Under the defaults without normalisation, " a  -  (b) " comes out as
    "a - (b)". *)
Lemma process_string_shape_witness :
  (unicode_normalization_mode CONFIG_NO_NORMALIZE = None ∧
   left_bracket CONFIG_NO_NORMALIZE = txt "(" ∧
   right_bracket CONFIG_NO_NORMALIZE = txt ")") ∧
  @_process_string basic_latin CONFIG_NO_NORMALIZE None (txt " a  -  (b) ")
    = Ok (txt "a - (b)") ∧
  run_free (@in_Z basic_latin) space false (txt "a - (b)") = true.
Proof.
  assert (H : @_process_string basic_latin CONFIG_NO_NORMALIZE None
                (txt " a  -  (b) ") = Ok (txt "a - (b)"))
    by (vm_compute; reflexivity).
  split; [done|]. split; [exact H|].
  exact (proj1 (@process_string_shape basic_latin CONFIG_NO_NORMALIZE _ _
                  eq_refl (or_intror (conj eq_refl eq_refl)) H) eq_refl).
Defined.


(** ** Field processor *)

Lemma process_string_total `{Externals} cfg decoder T :
  literal_brackets cfg → ∃ r, _process_string cfg decoder T = Ok r.
Proof.
  intros Hb. unfold _process_string.
  destruct (simplify_brackets cfg) eqn:E.
  - destruct Hb as [?|[Hl Hr]]; [congruence|].
    rewrite (sub_template_literal _ _ _ Hl). simpl.
    rewrite (sub_template_literal _ _ _ Hr). simpl. eauto.
  - simpl. eauto.
Qed.

Lemma sanitized_ok `{Externals} cfg decoder s :
  literal_brackets cfg →
  _process_string cfg decoder s = Ok (sanitized cfg decoder s).
Proof.
  intros Hb. unfold sanitized.
  by destruct (process_string_total cfg decoder s Hb) as [r ->].
Qed.

Section field_values.
Context `{Externals} (cfg : config) (decoder : option Unidecoder) (obj : loc).

(** One round of the loop ends normally and leaves in the field what one
    pass of the sanitizer makes of it. *)
Lemma process_field_value field w :
  literal_brackets cfg →
  ∃ w', process_field cfg decoder obj field w = (w', Ok tt) ∧
    ∀ k, attrs (obj_at w' obj) !! k =
      if decide (field = k)
      then sanitize_value cfg decoder <$> attrs (obj_at w obj) !! k
      else attrs (obj_at w obj) !! k.
Proof.
  intros Hlit. unfold process_field, hasattr, getattr, mbind, M_bind, lift.
  destruct (attrs (obj_at w obj) !! field) as [v|] eqn:Hk.
  2: { rewrite bool_decide_eq_false_2 by (by intros [? ?]).
       exists w. split; [done|]. intros k. case_decide; [|done].
       subst k. by rewrite Hk. }
  rewrite bool_decide_eq_true_2 by eauto. rewrite Hk.
  assert (Hskip : (∀ s, v ≠ VStr s) →
    ∃ w', (w, Ok tt) = (w', Ok tt) ∧
      ∀ k, attrs (obj_at w' obj) !! k =
        if decide (field = k)
        then sanitize_value cfg decoder <$> attrs (obj_at w obj) !! k
        else attrs (obj_at w obj) !! k).
  { intros Hv. exists w. split; [done|]. intros k. case_decide; [|done].
    subst k. rewrite Hk. destruct v; try done. by destruct (Hv s). }
  destruct v as [| |s]; [by apply Hskip..|]. clear Hskip.
  rewrite (sanitized_ok cfg decoder s Hlit).
  case_bool_decide as Hne.
  - exists (write_attr w obj field (VStr (sanitized cfg decoder s))).
    split; [done|]. intros k. rewrite attrs_write.
    case_decide; [|done]. subst k. by rewrite Hk.
  - exists w. split; [done|]. intros k. case_decide; [|done].
    subst k. rewrite Hk.
    change (Some (VStr s) = Some (VStr (sanitized cfg decoder s))).
    by rewrite Hne.
Qed.

Lemma process_fields_value fields w :
  literal_brackets cfg →
  ∃ w', for_each fields (process_field cfg decoder obj) w = (w', Ok tt) ∧
    ∀ k, attrs (obj_at w' obj) !! k =
      Nat.iter (occurrences k fields) (sanitize_value cfg decoder)
        <$> attrs (obj_at w obj) !! k.
Proof.
  intros Hlit. revert w.
  induction fields as [|f fields IH]; intros w; cbn [for_each].
  { exists w. split; [done|]. intros k. simpl. by destruct (_ !! k). }
  destruct (process_field_value f w Hlit) as (w1 & Hstep & H1).
  destruct (IH w1) as (w' & Hrun & H').
  exists w'. split; [by erewrite bind_ok|].
  intros k. rewrite H', H1. unfold occurrences.
  rewrite filter_cons. case_decide as Hfk.
  - destruct (attrs (obj_at w obj) !! k) as [v|]; [|done].
    cbn -[Nat.iter sanitize_value]. by rewrite Nat.iter_succ_r.
  - done.
Qed.
End field_values.

(** X6: when no bracket template asks for an expansion, the field processor
    ends normally on every object, whatever its attributes hold: a missing
    field and a value that is no string are passed over. *)
Theorem process_object_never_raises `{Externals} cfg decoder obj w :
  literal_brackets cfg →
  (_process_object cfg decoder obj w).2 = Ok tt.
Proof.
  intros Hlit. unfold _process_object.
  by destruct (process_fields_value cfg decoder obj (process_fields cfg) w Hlit)
    as (w' & -> & _).
Qed.

(** On the track of [world_feat], whose [artist_sort] holds [None]. *)
Lemma process_object_never_raises_witness :
  literal_brackets CONFIG_DEFAULT ∧
  (@_process_object basic_latin CONFIG_DEFAULT None 1%nat world_feat).2
    = Ok tt.
Proof.
  assert (Hlit : literal_brackets CONFIG_DEFAULT).
  { right. split; apply (bool_decide_eq_false_1 (backslash ∈ _));
      vm_compute; reflexivity. }
  split; [exact Hlit|].
  exact (@process_object_never_raises basic_latin CONFIG_DEFAULT None 1%nat
           world_feat Hlit).
Defined.

(** X7: when no bracket template asks for an expansion, the field
    processor leaves in every attribute of the object what the sanitizer makes of it, applied once for each
    time the attribute is named in [process_fields]: not at all for an
    attribute that is not named, and twice for one named twice. Values
    that are no strings stay. *)
Theorem process_object_sanitizes `{Externals} cfg decoder obj w k :
  literal_brackets cfg →
  attrs (obj_at (_process_object cfg decoder obj w).1 obj) !! k =
    Nat.iter (occurrences k (process_fields cfg)) (sanitize_value cfg decoder)
      <$> attrs (obj_at w obj) !! k.
Proof.
  intros Hlit. unfold _process_object.
  destruct (process_fields_value cfg decoder obj (process_fields cfg) w Hlit)
    as (w' & -> & Hk).
  apply Hk.
Qed.

(** The title of the track of [world_release], once it holds two spaces. *)
Lemma process_object_sanitizes_witness :
  literal_brackets CONFIG_DEFAULT ∧
  attrs (obj_at (@_process_object basic_latin CONFIG_DEFAULT None 1%nat
                   world_spaced).1 1%nat) !! "title"%string
    = Some (VStr (txt "foo feat. bar")).
Proof.
  assert (Hlit : literal_brackets CONFIG_DEFAULT).
  { right. split; apply (bool_decide_eq_false_1 (backslash ∈ _));
      vm_compute; reflexivity. }
  split; [exact Hlit|].
  rewrite (@process_object_sanitizes basic_latin CONFIG_DEFAULT None 1%nat
             world_spaced "title"%string Hlit).
  vm_compute. reflexivity.
Defined.


(** ** The tidy-up after transliteration *)

Lemma list_ind_pairs {A} (P : list A → Prop) :
  P [] → (∀ a, P [a]) →
  (∀ a b s, P s → P (b :: s) → P (a :: b :: s)) →
  ∀ s, P s.
Proof.
  intros Hnil Hone Hstep s.
  enough (P s ∧ ∀ a, P (a :: s)) by tauto.
  induction s as [|b s [IH1 IH2]]; [by split|].
  split; [apply IH2|]. intros a. by apply Hstep.
Qed.

Section tidy.
Context `{Externals}.

Lemma tidy_case_pair a b s :
  tidy_case (a :: b :: s) =
    if in_Ll a && in_Lu b then a :: space :: b :: tidy_case s
    else a :: tidy_case (b :: s).
Proof. done. Qed.

Lemma lower_upper_free_pair a b s :
  lower_upper_free (a :: b :: s) =
    negb (in_Ll a && in_Lu b) && lower_upper_free (b :: s).
Proof. done. Qed.

Lemma tidy_case_head b s : ∃ s', tidy_case (b :: s) = b :: s'.
Proof.
  destruct s as [|c s]; simpl; [by eexists|].
  destruct (in_Ll b && in_Lu c); by eexists.
Qed.

Lemma lower_not_upper c : in_Lu c = true → in_Ll c = false.
Proof. unfold in_Lu, in_Ll. by destruct (category c). Qed.

Lemma space_no_letter : in_Ll space = false ∧ in_Lu space = false.
Proof.
  unfold in_Ll, in_Lu. by rewrite (category_ascii space) by reflexivity.
Qed.

Lemma tidy_case_free s : lower_upper_free (tidy_case s) = true.
Proof.
  induction s as [| a | a b s IH1 IH2] using list_ind_pairs; [done..|].
  destruct space_no_letter as [Hl Hu].
  rewrite tidy_case_pair. destruct (in_Ll a && in_Lu b) eqn:E.
  - apply andb_true_iff in E as [_ Hb].
    rewrite !lower_upper_free_pair, Hu, Hl, andb_false_r. cbn [negb andb].
    destruct (tidy_case s) as [|c s'] eqn:Es; [done|].
    rewrite lower_upper_free_pair, (lower_not_upper b Hb). exact IH1.
  - destruct (tidy_case_head b s) as [s' Hs']. rewrite Hs' in *.
    by rewrite lower_upper_free_pair, E, IH2.
Qed.

Lemma tidy_case_filter (P : N → bool) s :
  P space = false → List.filter P (tidy_case s) = List.filter P s.
Proof.
  intros Hsp.
  induction s as [| a | a b s IH1 IH2] using list_ind_pairs; [done..|].
  rewrite tidy_case_pair. destruct (in_Ll a && in_Lu b).
  - cbn [List.filter]. by rewrite Hsp, IH1.
  - cbn [List.filter] in *. by rewrite IH2.
Qed.

Lemma tidy_punct_skip n s : tidy_punct n s = tidy_punct 0 (drop n s).
Proof.
  revert n. induction s as [|c s IH]; intros [|n]; try done.
  simpl. apply IH.
Qed.

(** A match of [\s+] and one character: the run read, the character, and
    the rest. *)
Lemma spaces_then_aux_split p s x n :
  spaces_then_aux p s = Some (x, n) →
  ∃ run rest, s = run ++ x :: rest ∧ n = S (length run) ∧
              forallb white_space run = true.
Proof.
  revert n. induction s as [|c s IH]; intros n; simpl; [done|].
  destruct (white_space c) eqn:Ec.
  - destruct (spaces_then_aux p s) as [[x' n']|] eqn:Ea.
    + intros [= <- <-]. destruct (IH _ eq_refl) as (run & rest & -> & -> & Hr).
      exists (c :: run), rest. simpl. by rewrite Ec, Hr.
    + destruct (p c); [|done]. intros [= <- <-]. by exists [], s.
  - destruct (p c); [|done]. intros [= <- <-]. by exists [], s.
Qed.

Lemma spaces_then_split p s x n :
  spaces_then p s = Some (x, n) →
  ∃ run rest, s = run ++ x :: rest ∧ n = S (length run) ∧
              forallb white_space run = true.
Proof.
  destruct s as [|c s]; simpl; [done|].
  destruct (white_space c) eqn:Ec; [|done].
  destruct (spaces_then_aux p s) as [[x' n']|] eqn:Ea; [|done].
  intros [= <- <-].
  destruct (spaces_then_aux_split _ _ _ _ Ea) as (run & rest & -> & -> & Hr).
  exists (c :: run), rest. simpl. by rewrite Ec, Hr.
Qed.

Lemma filter_run (P : N → bool) run :
  (∀ c, white_space c = true → P c = false) →
  forallb white_space run = true → List.filter P run = [].
Proof.
  intros HP. induction run as [|c run IH]; simpl; [done|].
  intros [Hc Hr]%andb_true_iff. by rewrite (HP c Hc), IH.
Qed.

Lemma tidy_punct_filter (P : N → bool) s :
  (∀ c, white_space c = true → P c = false) →
  List.filter P (tidy_punct 0 s) = List.filter P s.
Proof.
  intros HP. remember (length s) as len eqn:Hlen. revert s Hlen.
  induction (lt_wf len) as [len _ IH]. intros s Hlen.
  destruct s as [|c s]; [done|]. cbn [tidy_punct].
  assert (Hmatch : ∀ x n p, spaces_then p s = Some (x, n) →
    List.filter P (c :: x :: tidy_punct n s) = List.filter P (c :: s)).
  { intros x n p Hs.
    destruct (spaces_then_split _ _ _ _ Hs) as (run & rest & -> & -> & Hr).
    rewrite tidy_punct_skip.
    replace (drop (S (length run)) (run ++ x :: rest)) with rest.
    2: { change (S (length run)) with (1 + length run)%nat.
         rewrite Nat.add_comm, <- drop_drop, drop_app_length. done. }
    cbn [List.filter]. rewrite List.filter_app. cbn [List.filter].
    rewrite (filter_run P run HP Hr). cbn [app].
    rewrite (IH (length rest)) with (s := rest); [done | | done].
    subst len. rewrite length_cons, length_app. simpl. lia. }
  destruct (if in_L c then _ else _) as [[x n]|] eqn:E1.
  { destruct (in_L c); [|done]. by eapply Hmatch. }
  destruct (if in_Ps_Pi c then _ else _) as [[x n]|] eqn:E2.
  { destruct (in_Ps_Pi c); [|done]. by eapply Hmatch. }
  cbn [List.filter]. rewrite (IH (length s)) with (s := s); [done | | done].
  subst len. simpl. lia.
Qed.
End tidy.

(** X8: the first substitution of the tidy-up, [(\p{Ll})(\p{Lu})] by
    ["\\1 \\2"], leaves no lowercase letter directly before an uppercase
    one, and it only inserts spaces: with the spaces taken out, the text is
    as before. *)
Theorem tidy_case_separates `{Externals} (s : text) :
  lower_upper_free (tidy_case s) = true ∧
  List.filter (λ c, negb (c =? space)) (tidy_case s)
    = List.filter (λ c, negb (c =? space)) s.
Proof.
  split; [apply tidy_case_free|]. by apply tidy_case_filter.
Qed.

(** X9: the tidy-up as a whole changes white space only: it keeps every
    character that is neither a space nor matched by [\s], in order, and
    adds none. *)
Theorem tidy_changes_spaces_only `{Externals} (s : text) :
  without_spaces (tidy_punct 0 (tidy_case s)) = without_spaces s.
Proof.
  unfold without_spaces.
  rewrite tidy_punct_filter.
  - apply tidy_case_filter. by rewrite N.eqb_refl, orb_true_r.
  - intros c Hc. by rewrite Hc.
Qed.

(** The texts of [test_han_tidy], as [Unidecoder] leaves them, come out as
    the test expects. *)
Lemma tidy_test_han_tidy :
  @tidy_punct basic_latin 0
    (@tidy_case basic_latin (txt "Kyou Mei (Kuu Kyo naShaku )"))
    = txt "Kyou Mei (Kuu Kyo na Shaku)" ∧
  @tidy_punct basic_latin 0
    (@tidy_case basic_latin (txt "Gan Sei Shun Ni , Shou Rin Bu Shi"))
    = txt "Gan Sei Shun Ni, Shou Rin Bu Shi".
Proof. vm_compute. by split. Qed.


(** ** What the handlers may do to the objects *)

Lemma value_evolves_refl v : value_evolves v v.
Proof. destruct v as [[| |s]|]; simpl; eauto. Qed.

Lemma value_evolves_trans v1 v2 v3 :
  value_evolves v1 v2 → value_evolves v2 v3 → value_evolves v1 v3.
Proof.
  destruct v1 as [[| |s]|]; simpl.
  - by intros ->.
  - by intros ->.
  - by intros [s' ->].
  - by intros ->.
Qed.

Lemma heap_evolves_refl h : heap_evolves h h.
Proof. intros l. split; [done|]. intros k. apply value_evolves_refl. Qed.

Lemma heap_evolves_trans h1 h2 h3 :
  heap_evolves h1 h2 → heap_evolves h2 h3 → heap_evolves h1 h3.
Proof.
  intros H12 H23 l. destruct (H12 l) as [Ht Hv], (H23 l) as [Ht' Hv'].
  split; [congruence|]. intros k. by eapply value_evolves_trans.
Qed.

Lemma apply_write_evolves h l k s s' :
  attrs (heap_obj h l) !! k = Some (VStr s) →
  heap_evolves h (apply_write h (l, k, VStr s')).
Proof.
  intros Hk l'. rewrite heap_obj_apply_write. simpl.
  case_decide as Hl; [subst l'|]; [|split; [done|]; intros; apply value_evolves_refl].
  split; [done|]. intros k'. simpl. rewrite lookup_insert.
  case_decide as Hkk; [subst k'|apply value_evolves_refl].
  rewrite Hk. simpl. eauto.
Qed.

Section allowed_writes.
Context (L : loc → Prop) (K : string → Prop).

Lemma allowed_app h new new' :
  allowed L K h new → allowed L K (replay new h) new' →
  allowed L K h (new ++ new').
Proof.
  revert h. induction new as [|wr new IH]; intros h; simpl; [done|].
  intros (HL & HK & Hs & Ha) Hb. split_and!; try done. by apply IH.
Qed.

Lemma allowed_weaken (L' : loc → Prop) (K' : string → Prop) h new :
  (∀ l, L l → L' l) → (∀ k, K k → K' k) →
  allowed L K h new → allowed L' K' h new.
Proof.
  intros HL HK. revert h. induction new as [|wr new IH]; intros h; simpl;
    [done|].
  intros (? & ? & ? & ?). split_and!; auto.
Qed.

Lemma allowed_evolves h new :
  allowed L K h new → heap_evolves h (replay new h).
Proof.
  revert h. induction new as [|[[l k] v] new IH]; intros h; simpl.
  { intros _. apply heap_evolves_refl. }
  intros (_ & _ & (s & s' & Hk & ->) & Ha). simpl in *.
  eapply heap_evolves_trans; [by eapply apply_write_evolves|].
  by apply IH.
Qed.

Lemma allowed_other_object h new l :
  allowed L K h new → ¬ L l → replay new h !! l = h !! l.
Proof.
  revert h. induction new as [|wr new IH]; intros h; simpl; [done|].
  intros (HL & _ & _ & Ha) Hl. unfold replay in *. rewrite (IH _ Ha Hl).
  unfold apply_write. rewrite lookup_insert_ne; [done|]. by intros <-.
Qed.

Lemma allowed_other_attr h new l k :
  allowed L K h new → ¬ K k →
  attrs (heap_obj (replay new h) l) !! k = attrs (heap_obj h l) !! k.
Proof.
  revert h. induction new as [|wr new IH]; intros h; simpl; [done|].
  intros (_ & HK & _ & Ha) Hk. unfold replay in *. rewrite (IH _ Ha Hk).
  rewrite heap_obj_apply_write. case_decide; [|done]. simpl.
  rewrite lookup_insert_ne; [done|]. by intros <-.
Qed.

Lemma footprint_refl w : footprint L K w w.
Proof. exists []. split_and!; try done. by rewrite app_nil_r. Qed.

Lemma footprint_trans w1 w2 w3 :
  footprint L K w1 w2 → footprint L K w2 w3 → footprint L K w1 w3.
Proof.
  intros (n1 & Hh1 & Hw1 & Ha1 & Ht1 & Hp1 & Hq1)
         (n2 & Hh2 & Hw2 & Ha2 & Ht2 & Hp2 & Hq2).
  exists (n1 ++ n2). split_and!.
  - rewrite Hh2, Hh1. unfold replay. by rewrite foldl_app.
  - by rewrite Hw2, Hw1, app_assoc.
  - apply allowed_app; [done|]. by rewrite <- Hh1.
  - by etrans.
  - congruence.
  - congruence.
Qed.

Lemma footprint_write w l k s s' :
  L l → K k → attrs (obj_at w l) !! k = Some (VStr s) →
  footprint L K w (write_attr w l k (VStr s')).
Proof.
  intros HL HK Hk. exists [(l, k, VStr s')].
  split_and!; try done. simpl. split_and!; eauto.
Qed.

Lemma footprint_table w t :
  t ⊆ track_join_phrases w → footprint L K w (with_join_phrases w t).
Proof.
  intros Ht. exists []. split_and!; try done. simpl. by rewrite app_nil_r.
Qed.

Lemma within_bind {A B} (m : M A) (f : A → M B) :
  within L K m → (∀ a, within L K (f a)) → within L K (m ≫= f).
Proof.
  intros Hm Hf w. unfold mbind, M_bind. specialize (Hm w).
  destruct (m w) as [w1 [a|e]]; simpl in *; [|done].
  eapply footprint_trans; [done|]. apply Hf.
Qed.

Lemma within_pure {A} (m : M A) : (∀ w, (m w).1 = w) → within L K m.
Proof. intros Hm w. rewrite Hm. apply footprint_refl. Qed.

Lemma within_for_each {A} (xs : list A) (body : A → M unit) :
  (∀ x, x ∈ xs → within L K (body x)) → within L K (for_each xs body).
Proof.
  induction xs as [|x xs IH]; intros Hb; simpl.
  - by apply within_pure.
  - apply within_bind; [apply Hb; by left|].
    intros _. apply IH. intros y Hy. apply Hb. by right.
Qed.
End allowed_writes.


(** ** The footprint of the handlers *)

Lemma scrub_field_step info P key w :
  (scrub_field info P key w).1 = w ∨
  ∃ V V',
    attrs (obj_at w info) !! key = Some (VStr V) ∧
    (scrub_field info P key w).1 = write_attr w info key (VStr V').
Proof.
  unfold scrub_field, hasattr, getattr, mbind, M_bind, lift.
  destruct (attrs (obj_at w info) !! key) as [v|] eqn:Hk.
  2: { left. rewrite bool_decide_eq_false_2; [done|]. by intros [? ?]. }
  rewrite bool_decide_eq_true_2 by eauto. cbn [negb]. rewrite Hk.
  destruct v as [| |V]; [by left..|]. unfold str_split.
  case_bool_decide; [by left|].
  destruct (split_aux P 0 [] V) as [|first parts] eqn:Es; [by left|].
  right. by exists V, first.
Qed.

Section handler_footprints.
Context `{Externals} (cfg : config).
Context (L : loc → Prop) (K : string → Prop).

Lemma within_scrub_field info P key :
  L info → K key → within L K (scrub_field info P key).
Proof.
  intros HL HK w.
  destruct (scrub_field_step info P key w) as [->|(V & V' & Hk & ->)].
  - apply footprint_refl.
  - by eapply footprint_write.
Qed.

Lemma within_process_field decoder obj field :
  L obj → K field → within L K (process_field cfg decoder obj field).
Proof.
  intros HL HK w.
  destruct (process_field_step cfg decoder obj field w)
    as [->|(s & clean & Hk & _ & _ & ->)].
  - apply footprint_refl.
  - by eapply footprint_write.
Qed.

Lemma within_process_object decoder obj :
  L obj → (∀ k, k ∈ process_fields cfg → K k) →
  within L K (_process_object cfg decoder obj).
Proof.
  intros HL HK. apply within_for_each. intros k Hk.
  apply within_process_field; auto.
Qed.

Lemma within_scrub_track_feats info :
  L info → (∀ k, k ∈ drop_feats_from_fields cfg → K k) →
  within L K (_scrub_track_feats cfg info).
Proof.
  intros HL HK w.
  destruct (attrs (obj_at w info) !! "track_id") as [v|] eqn:Hid.
  2: { unfold _scrub_track_feats, getattr, mbind, M_bind. rewrite Hid.
       apply footprint_refl. }
  destruct (dict_contains (track_join_phrases w) v) eqn:Hc.
  - destruct v as [| |id]; try done.
    apply bool_decide_eq_true in Hc as [P HP].
    rewrite (scrub_known cfg info w id P Hid HP).
    eapply footprint_trans.
    + apply (footprint_table L K w (delete id (track_join_phrases w))).
      apply delete_subseteq.
    + apply within_for_each. intros k Hk. apply within_scrub_field; auto.
  - unfold _scrub_track_feats, getattr, join_phrases_contains, mbind, M_bind.
    rewrite Hid. simpl. rewrite Hc. apply footprint_refl.
Qed.

Lemma within_process_track decoder track :
  L track →
  (∀ k, k ∈ process_fields cfg ∨ k ∈ drop_feats_from_fields cfg → K k) →
  within L K (process_track cfg decoder track).
Proof.
  intros HL HK. unfold process_track. apply within_bind.
  - case_bool_decide.
    + apply within_scrub_track_feats; auto.
    + by apply within_pure.
  - intros _. apply within_process_object; auto.
Qed.
End handler_footprints.

Lemma albuminfo_footprint `{Externals} cfg info w :
  footprint (λ l, l = info ∨ l ∈ tracks (obj_at w info))
    (λ k, k ∈ process_fields cfg ∨ k ∈ drop_feats_from_fields cfg)
    w (_albuminfo_received cfg info w).1.
Proof.
  unfold _albuminfo_received, getattr, get_tracks, lift.
  unfold mbind, M_bind at 1 2 3 4.
  destruct (attrs (obj_at w info) !! "language") as [language|];
    [|apply footprint_refl].
  destruct (attrs (obj_at w info) !! "script") as [script|];
    [|apply footprint_refl].
  destruct (_get_decoder cfg language script) as [decoder|e];
    [|apply footprint_refl].
  apply within_bind.
  - apply within_for_each. intros track Ht.
    apply within_process_track; auto.
  - intros _. apply within_process_object; auto.
Qed.

(** X15: release arrival, whether it ends or raises, changes the objects
    only by writes it enters in the journal, each of them to the release
    or one of its tracks, to an attribute named in [process_fields] or
    [drop_feats_from_fields] that holds a string at that moment, and of a
    string; it adds or removes no attribute,
    changes no value that is no string and keeps every string a string;
    it leaves every object other than the release and its tracks as it
    was, and on every object every attribute that is named in neither
    [process_fields] nor [drop_feats_from_fields]; it only removes entries
    from the join-phrase table, and it leaves the two pending tables
    alone. *)
Theorem albuminfo_received_frame `{Externals} cfg info w :
  let w' := (_albuminfo_received cfg info w).1 in
  (∃ new, writes w' = writes w ++ new ∧ heap w' = replay new (heap w) ∧
          allowed (λ l, l = info ∨ l ∈ tracks (obj_at w info))
            (λ k, k ∈ process_fields cfg ∨ k ∈ drop_feats_from_fields cfg)
            (heap w) new) ∧
  heap_evolves (heap w) (heap w') ∧
  (∀ l, l ≠ info → l ∉ tracks (obj_at w info) →
        heap w' !! l = heap w !! l) ∧
  (∀ l k, k ∉ process_fields cfg → k ∉ drop_feats_from_fields cfg →
          attrs (obj_at w' l) !! k = attrs (obj_at w l) !! k) ∧
  track_join_phrases w' ⊆ track_join_phrases w ∧
  pending_tracks w' = pending_tracks w ∧
  pending_albums w' = pending_albums w.
Proof.
  intros w'. subst w'.
  destruct (albuminfo_footprint cfg info w)
    as (new & Hh & Hw & Ha & Ht & Hp & Hq).
  split_and!; try done.
  - by exists new.
  - rewrite Hh. by eapply allowed_evolves.
  - intros l Hl Hlt. rewrite Hh. eapply allowed_other_object; [done|].
    by intros [?|?].
  - intros l k Hk Hk'. unfold obj_at. rewrite Hh.
    eapply (allowed_other_attr _ _ _ _ l k Ha). by intros [?|?].
Qed.

(** X11: the scrub, whether it ends or raises, changes the objects only by
    writes it enters in the journal, each of them to the track it is
    given, to an attribute named in [drop_feats_from_fields] that holds a
    string at that moment, and of a string; it
    adds or removes no attribute and changes no value that is no string;
    of the join-phrase table it removes at most entries; the pending
    tables stay. *)
Theorem scrub_track_feats_frame cfg info w :
  let w' := (_scrub_track_feats cfg info w).1 in
  (∃ new, writes w' = writes w ++ new ∧ heap w' = replay new (heap w) ∧
          allowed (λ l, l = info) (λ k, k ∈ drop_feats_from_fields cfg)
            (heap w) new) ∧
  heap_evolves (heap w) (heap w') ∧
  (∀ l, l ≠ info → heap w' !! l = heap w !! l) ∧
  (∀ k, k ∉ drop_feats_from_fields cfg →
        attrs (obj_at w' info) !! k = attrs (obj_at w info) !! k) ∧
  track_join_phrases w' ⊆ track_join_phrases w ∧
  pending_tracks w' = pending_tracks w ∧
  pending_albums w' = pending_albums w.
Proof.
  intros w'. subst w'.
  destruct (within_scrub_track_feats cfg (λ l, l = info)
              (λ k, k ∈ drop_feats_from_fields cfg) info eq_refl
              (λ k Hk, Hk) w)
    as (new & Hh & Hw & Ha & Ht & Hp & Hq).
  split_and!; try done.
  - by exists new.
  - rewrite Hh. by eapply allowed_evolves.
  - intros l Hl. rewrite Hh. by eapply allowed_other_object.
  - intros k Hk. unfold obj_at. rewrite Hh.
    by eapply (allowed_other_attr _ _ _ _ info k Ha).
Qed.


(** ** When the scrub ends and when it raises *)

Lemma scrub_fields_outcome info P fields w :
  P ≠ [] →
  ((for_each fields (scrub_field info P) w).2 = Ok tt ∧
   ∀ key v, key ∈ fields → attrs (obj_at w info) !! key = Some v →
            ∃ V, v = VStr V) ∨
  ((for_each fields (scrub_field info P) w).2 = Raise AttributeError ∧
   ∃ key v, key ∈ fields ∧ attrs (obj_at w info) !! key = Some v ∧
            ∀ V, v ≠ VStr V).
Proof.
  intros HP. revert w.
  induction fields as [|k fields IH]; intros w; cbn [for_each].
  { left. split; [done|]. by intros key v ?%elem_of_nil. }
  destruct (attrs (obj_at w info) !! k) as [v|] eqn:Hk.
  - assert (Hcase : (∃ V, v = VStr V) ∨ ¬ (∃ V, v = VStr V)).
    { destruct v; [right; by intros [? ?] .. | left; eauto]. }
    destruct Hcase as [[V ->]|Hv].
    + erewrite bind_ok by by apply scrub_field_present.
      set (w1 := write_attr w info k (VStr (before_first P V))).
      assert (Hother : ∀ key, key ≠ k →
                attrs (obj_at w1 info) !! key = attrs (obj_at w info) !! key).
      { intros key Hne. subst w1. rewrite attrs_write. by case_decide. }
      destruct (IH w1) as [[Hok Hstr]|(Hraise & key & v & Hin & Hkey & Hv)].
      * left. split; [done|]. intros key v [->|Hin]%elem_of_cons Hkey.
        { rewrite Hk in Hkey. injection Hkey as <-. eauto. }
        destruct (decide (key = k)) as [->|Hne].
        { rewrite Hk in Hkey. injection Hkey as <-. eauto. }
        apply (Hstr key v Hin). by rewrite Hother.
      * right. split; [done|]. exists key, v.
        assert (key ≠ k) as Hne.
        { intros ->. subst w1. rewrite attrs_write, decide_True in Hkey by done.
          injection Hkey as <-. by destruct (Hv (before_first P V)). }
        split_and!; [by right | by rewrite <- Hother | done].
    + erewrite bind_raise.
      2: { apply (scrub_field_not_string info P k w v Hk). intros V ->.
           apply Hv. by exists V. }
      right. split; [done|]. exists k, v.
      split_and!; [by left | done |]. intros V ->. apply Hv. by exists V.
  - erewrite bind_ok by by apply scrub_field_absent.
    destruct (IH w) as [[Hok Hstr]|(Hraise & key & v & Hin & Hkey & Hv)].
    + left. split; [done|]. intros key v [->|Hin]%elem_of_cons Hkey.
      { congruence. }
      by apply (Hstr key v).
    + right. split; [done|]. exists key, v. split_and!; [by right|done..].
Qed.

(** X12: for a track whose recording has a (non-empty) join phrase in the table,
    the scrub ends normally exactly when every field to drop featured
    artists from that the track has holds a string; otherwise it raises
    [AttributeError], and nothing else. *)
Theorem scrub_outcome cfg info w id P :
  attrs (obj_at w info) !! "track_id" = Some (VStr id) →
  track_join_phrases w !! id = Some P →
  P ≠ [] →
  ((_scrub_track_feats cfg info w).2 = Ok tt ↔
   ∀ key v, key ∈ drop_feats_from_fields cfg →
            attrs (obj_at w info) !! key = Some v → ∃ V, v = VStr V) ∧
  ((_scrub_track_feats cfg info w).2 = Ok tt ∨
   (_scrub_track_feats cfg info w).2 = Raise AttributeError).
Proof.
  intros Hid HP Hne. rewrite (scrub_known cfg info w id P Hid HP).
  set (w1 := with_join_phrases w (delete id (track_join_phrases w))).
  destruct (scrub_fields_outcome info P (drop_feats_from_fields cfg) w1 Hne)
    as [[Hok Hstr]|(Hraise & key & v & Hin & Hkey & Hv)].
  - split; [|by left]. split; [|done]. intros _. exact Hstr.
  - split; [|by right]. rewrite Hraise. split; [done|].
    intros Hstr. destruct (Hstr key v Hin Hkey) as [V ->].
    by destruct (Hv V).
Qed.

(** On the track of [world_feat] under the defaults: [artist_sort] holds
    [None], and the scrub raises. *)
Lemma scrub_outcome_witness :
  (attrs (obj_at world_feat 1%nat) !! "track_id"%string
     = Some (VStr (txt "mocktrack")) ∧
   track_join_phrases world_feat !! txt "mocktrack" = Some (txt " feat. ") ∧
   txt " feat. " ≠ []) ∧
  (_scrub_track_feats CONFIG_DEFAULT 1%nat world_feat).2
    = Raise AttributeError.
Proof.
  split; [by split_and!|].
  destruct (proj2 (scrub_outcome CONFIG_DEFAULT 1%nat world_feat
                     (txt "mocktrack") (txt " feat. ") eq_refl eq_refl
                     ltac:(discriminate))) as [Hok|Hraise].
  - vm_compute in Hok. discriminate Hok.
  - exact Hraise.
Defined.


(** ** Release arrival: when it ends normally *)

Lemma get_decoder_total cfg lang script :
  ∃ d, _get_decoder cfg lang script = Ok d.
Proof.
  destruct (resolves_or_not cfg lang) as [[t Ht]|Hl].
  { rewrite (get_decoder_first cfg lang script t Ht). eauto. }
  destruct (resolves_or_not cfg script) as [[t Ht]|Hs].
  { rewrite (get_decoder_by_script cfg lang script t Hl Ht). eauto. }
  rewrite (get_decoder_second cfg lang script Hl).
  rewrite (get_decoder_neither cfg script Hs). eauto.
Qed.

Lemma scrub_no_entry cfg info w v :
  attrs (obj_at w info) !! "track_id" = Some v →
  dict_contains (track_join_phrases w) v = false →
  _scrub_track_feats cfg info w = (w, Ok tt).
Proof.
  intros Hid Hc.
  unfold _scrub_track_feats, getattr, join_phrases_contains, mbind, M_bind.
  rewrite Hid. simpl. by rewrite Hc.
Qed.

Lemma bind_ok_inv {A B} (m : M A) (f : A → M B) w b :
  ((m ≫= f) w).2 = Ok b → ∃ w1 a, m w = (w1, Ok a) ∧ (f a w1).2 = Ok b.
Proof.
  unfold mbind, M_bind. destruct (m w) as [w1 [a|e]]; [eauto|done].
Qed.

Lemma footprint_keeps_strings L K w w' t (keys : list string) :
  footprint L K w w' →
  (∀ key v, key ∈ keys → attrs (obj_at w t) !! key = Some v →
            ∃ V, v = VStr V) →
  ∀ key v, key ∈ keys → attrs (obj_at w' t) !! key = Some v →
           ∃ V, v = VStr V.
Proof.
  intros (new & Hh & _ & Ha & _) Hstr key v Hin Hkey.
  destruct (allowed_evolves L K _ _ Ha t) as [_ Hv]. specialize (Hv key).
  rewrite <- Hh in Hv.
  change (heap_obj (heap w') t) with (obj_at w' t) in Hv.
  change (heap_obj (heap w) t) with (obj_at w t) in Hv.
  rewrite Hkey in Hv.
  destruct (attrs (obj_at w t) !! key) as [x|] eqn:Hx; [|done].
  destruct (Hstr key x Hin Hx) as [V ->].
  destruct Hv as [s' Hs']. injection Hs' as ->. eauto.
Qed.

Lemma footprint_keeps_attr L K w w' t k :
  footprint L K w w' →
  is_Some (attrs (obj_at w t) !! k) → is_Some (attrs (obj_at w' t) !! k).
Proof.
  intros (new & Hh & _ & Ha & _) [x Hx].
  destruct (allowed_evolves L K _ _ Ha t) as [_ Hv]. specialize (Hv k).
  rewrite <- Hh in Hv.
  change (heap_obj (heap w') t) with (obj_at w' t) in Hv.
  change (heap_obj (heap w) t) with (obj_at w t) in Hv.
  rewrite Hx in Hv. destruct x; simpl in Hv; try (rewrite Hv; eauto).
  destruct Hv as [s' ->]. eauto.
Qed.

Lemma footprint_table_shrinks L K w w' :
  footprint L K w w' → track_join_phrases w' ⊆ track_join_phrases w.
Proof. by intros (new & _ & _ & _ & Hsub & _). Qed.

Section release_outcome.
Context `{Externals} (cfg : config) (decoder : option Unidecoder).

Lemma process_track_footprint t w :
  footprint (λ _, True)
    (λ k, k ∈ process_fields cfg ∨ k ∈ drop_feats_from_fields cfg)
    w (process_track cfg decoder t w).1.
Proof. by apply within_process_track. Qed.

Lemma process_tracks_footprint ts w :
  footprint (λ _, True)
    (λ k, k ∈ process_fields cfg ∨ k ∈ drop_feats_from_fields cfg)
    w (for_each ts (process_track cfg decoder) w).1.
Proof.
  apply within_for_each. intros t _. by apply within_process_track.
Qed.

Lemma process_track_ok t w :
  literal_brackets cfg → phrases_nonempty w →
  is_Some (attrs (obj_at w t) !! "track_id") →
  (∀ key v, key ∈ drop_feats_from_fields cfg →
            attrs (obj_at w t) !! key = Some v → ∃ V, v = VStr V) →
  (process_track cfg decoder t w).2 = Ok tt.
Proof.
  intros Hlit Hne [v Hid] Hstr. unfold process_track.
  assert (∃ w1, (if bool_decide (drop_feats_from_fields cfg ≠ [])
                 then _scrub_track_feats cfg t else mret tt) w
                = (w1, Ok tt)) as [w1 Hw1].
  { case_bool_decide; [|by eexists].
    destruct (dict_contains (track_join_phrases w) v) eqn:Hc.
    - destruct v as [| |id]; try done.
      apply bool_decide_eq_true in Hc as [P HP].
      rewrite (scrub_known cfg t w id P Hid HP).
      destruct (scrub_fields_ok t P (drop_feats_from_fields cfg)
                  (with_join_phrases w (delete id (track_join_phrases w)))
                  (Hne id P HP) Hstr) as (w' & -> & _).
      eauto.
    - rewrite (scrub_no_entry cfg t w v Hid Hc). eauto. }
  erewrite bind_ok by exact Hw1.
  destruct (process_fields_value cfg decoder t (process_fields cfg) w1 Hlit)
    as (w' & Hrun & _).
  unfold _process_object. by rewrite Hrun.
Qed.

Lemma process_tracks_ok ts w :
  literal_brackets cfg → phrases_nonempty w →
  (∀ t, t ∈ ts →
     is_Some (attrs (obj_at w t) !! "track_id") ∧
     ∀ key v, key ∈ drop_feats_from_fields cfg →
              attrs (obj_at w t) !! key = Some v → ∃ V, v = VStr V) →
  ∃ w', for_each ts (process_track cfg decoder) w = (w', Ok tt).
Proof.
  intros Hlit. revert w.
  induction ts as [|t ts IH]; intros w Hne Hts; cbn [for_each].
  { by eexists. }
  destruct (Hts t) as [Hid Hstr]; [by left|].
  pose proof (process_track_ok t w Hlit Hne Hid Hstr) as Hok.
  pose proof (process_track_footprint t w) as Hfp.
  destruct (process_track cfg decoder t w) as [w1 r] eqn:E.
  simpl in Hok, Hfp. subst r.
  erewrite bind_ok by exact E.
  apply IH.
  - eapply phrases_nonempty_subseteq; [|exact Hne].
    by eapply footprint_table_shrinks.
  - intros t' Ht'. destruct (Hts t') as [Hid' Hstr']; [by right|]. split.
    + by eapply footprint_keeps_attr.
    + by eapply footprint_keeps_strings.
Qed.

Lemma process_track_consumes t w id :
  drop_feats_from_fields cfg ≠ [] →
  attrs (obj_at w t) !! "track_id" = Some (VStr id) →
  track_join_phrases (process_track cfg decoder t w).1 !! id = None.
Proof.
  intros Hdrop Hid. unfold process_track.
  rewrite bool_decide_eq_true_2 by done.
  assert (track_join_phrases (_scrub_track_feats cfg t w).1 !! id = None)
    as Hc.
  { destruct (track_join_phrases w !! id) as [P|] eqn:HP.
    - rewrite (scrub_known cfg t w id P Hid HP), scrub_fields_table.
      simpl. apply lookup_delete_eq.
    - by rewrite (scrub_unknown cfg t w id Hid HP). }
  unfold mbind, M_bind.
  destruct (_scrub_track_feats cfg t w) as [w1 [[]|e]]; simpl in *; [|done].
  by rewrite process_object_table.
Qed.

Lemma process_tracks_consume ts w :
  drop_feats_from_fields cfg ≠ [] →
  "track_id" ∉ process_fields cfg →
  "track_id" ∉ drop_feats_from_fields cfg →
  (for_each ts (process_track cfg decoder) w).2 = Ok tt →
  ∀ t id, t ∈ ts → attrs (obj_at w t) !! "track_id" = Some (VStr id) →
    track_join_phrases (for_each ts (process_track cfg decoder) w).1 !! id
      = None.
Proof.
  intros Hdrop Hp Hd. revert w.
  induction ts as [|t0 ts IH]; intros w Hok t id Hin Hid.
  { by apply elem_of_nil in Hin. }
  cbn [for_each] in *.
  apply bind_ok_inv in Hok as (w1 & [] & E & Hok).
  rewrite (bind_ok _ _ _ _ _ E).
  pose proof (process_track_footprint t0 w) as Hfp.
  rewrite E in Hfp. simpl in Hfp.
  apply elem_of_cons in Hin as [->|Hin].
  - pose proof (process_track_consumes t0 w id Hdrop Hid) as Hc.
    rewrite E in Hc. simpl in Hc.
    eapply lookup_weaken_None; [exact Hc|].
    eapply footprint_table_shrinks, process_tracks_footprint.
  - apply (IH w1 Hok t id Hin).
    destruct Hfp as (new & Hh & _ & Ha & _).
    change (obj_at w1 t) with (heap_obj (heap w1) t).
    rewrite Hh, (allowed_other_attr _ _ _ _ _ _ Ha); [done|].
    by intros [?|?].
Qed.
End release_outcome.

(** X16: release arrival ends normally when no bracket template asks for an
    expansion, the table holds non-empty phrases only (as the handlers
    keep it), the release has its language and script attributes, and each
    of its tracks has a recording identifier and holds strings in those of
    the fields to drop featured artists from that it has. *)
Theorem albuminfo_received_succeeds `{Externals} cfg info w :
  literal_brackets cfg → phrases_nonempty w → release_well_typed cfg w info →
  (_albuminfo_received cfg info w).2 = Ok tt.
Proof.
  intros Hlit Hne ([language Hl] & [script Hs] & Hts).
  unfold _albuminfo_received, getattr, get_tracks, lift.
  unfold mbind, M_bind at 1 2 3 4.
  rewrite Hl, Hs. destruct (get_decoder_total cfg language script) as [d ->].
  destruct (process_tracks_ok cfg d (tracks (obj_at w info)) w Hlit Hne Hts)
    as [w1 Hw1].
  erewrite bind_ok by exact Hw1.
  destruct (process_fields_value cfg d info (process_fields cfg) w1 Hlit)
    as (w' & Hrun & _).
  unfold _process_object. by rewrite Hrun.
Qed.

(** The release of [test_drop_feats], with featured artists dropped from
    [artist]. *)
Lemma albuminfo_received_succeeds_witness :
  (literal_brackets CONFIG_DROP_ARTIST ∧ phrases_nonempty world_release ∧
   release_well_typed CONFIG_DROP_ARTIST world_release 2%nat) ∧
  (@_albuminfo_received basic_latin CONFIG_DROP_ARTIST 2%nat world_release).2
    = Ok tt.
Proof.
  assert (Hlit : literal_brackets CONFIG_DROP_ARTIST).
  { right. split; apply (bool_decide_eq_false_1 (backslash ∈ _));
      vm_compute; reflexivity. }
  assert (Hne : phrases_nonempty world_release).
  { intros id P HP.
    change (({[ txt "mocktrack" := txt " feat. " ]} : gmap text text) !! id
            = Some P) in HP.
    apply lookup_singleton_Some in HP as [_ <-]. discriminate. }
  assert (Hwt : release_well_typed CONFIG_DROP_ARTIST world_release 2%nat).
  { split_and!.
    - exists VNone. vm_compute. reflexivity.
    - exists VNone. vm_compute. reflexivity.
    - intros t Ht.
      replace (tracks (obj_at world_release 2%nat)) with [1%nat] in Ht
        by (vm_compute; reflexivity).
      apply list_elem_of_singleton in Ht as ->. split.
      + exists (VStr (txt "mocktrack")). vm_compute. reflexivity.
      + intros key v Hkey%list_elem_of_singleton Hv. subst key.
        replace (attrs (obj_at world_release 1%nat) !! "artist"%string)
          with (Some (VStr (txt "foo feat. bar"))) in Hv
          by (vm_compute; reflexivity).
        injection Hv as <-. eauto. }
  split; [by split_and!|].
  exact (@albuminfo_received_succeeds basic_latin CONFIG_DROP_ARTIST 2%nat
           world_release Hlit Hne Hwt).
Defined.

(** ** Release arrival: what it consumes *)

(** X17: when featured artists are dropped from some field, the attribute
    [track_id] is named in neither list of fields, and release arrival
    ends normally, the table holds no phrase any more for the recording of
    any track of the release. *)
Theorem albuminfo_received_consumes `{Externals} cfg info w :
  drop_feats_from_fields cfg ≠ [] →
  "track_id" ∉ process_fields cfg →
  "track_id" ∉ drop_feats_from_fields cfg →
  (_albuminfo_received cfg info w).2 = Ok tt →
  ∀ t id, t ∈ tracks (obj_at w info) →
    attrs (obj_at w t) !! "track_id" = Some (VStr id) →
    track_join_phrases (_albuminfo_received cfg info w).1 !! id = None.
Proof.
  intros Hdrop Hp Hd Hok t id Hin Hid. revert Hok.
  unfold _albuminfo_received, getattr, get_tracks, lift.
  unfold mbind, M_bind at 1 2 3 4 6 7 8 9.
  destruct (attrs (obj_at w info) !! "language") as [language|]; [|done].
  destruct (attrs (obj_at w info) !! "script") as [script|]; [|done].
  destruct (_get_decoder cfg language script) as [decoder|e]; [|done].
  intros Hok. apply bind_ok_inv in Hok as (w1 & [] & E & Hok).
  rewrite (bind_ok _ _ _ _ _ E), process_object_table.
  pose proof (process_tracks_consume cfg decoder (tracks (obj_at w info)) w
                Hdrop Hp Hd) as Hc.
  rewrite E in Hc. by apply (Hc eq_refl t id).
Qed.

Lemma albuminfo_received_consumes_witness :
  (drop_feats_from_fields CONFIG_DROP_ARTIST ≠ [] ∧
   ("track_id"%string ∉ process_fields CONFIG_DROP_ARTIST) ∧
   ("track_id"%string ∉ drop_feats_from_fields CONFIG_DROP_ARTIST) ∧
   (@_albuminfo_received basic_latin CONFIG_DROP_ARTIST 2%nat
      world_release).2 = Ok tt ∧
   1%nat ∈ tracks (obj_at world_release 2%nat) ∧
   attrs (obj_at world_release 1%nat) !! "track_id"%string
     = Some (VStr (txt "mocktrack"))) ∧
  track_join_phrases
    (@_albuminfo_received basic_latin CONFIG_DROP_ARTIST 2%nat
       world_release).1 !! txt "mocktrack" = None.
Proof.
  assert (H1 : drop_feats_from_fields CONFIG_DROP_ARTIST ≠ [])
    by discriminate.
  assert (H2 : "track_id"%string ∉ process_fields CONFIG_DROP_ARTIST).
  { apply (bool_decide_eq_false_1 (_ ∈ _)). vm_compute. reflexivity. }
  assert (H3 : "track_id"%string ∉ drop_feats_from_fields CONFIG_DROP_ARTIST).
  { apply (bool_decide_eq_false_1 (_ ∈ _)). vm_compute. reflexivity. }
  assert (H4 : (@_albuminfo_received basic_latin CONFIG_DROP_ARTIST 2%nat
                  world_release).2 = Ok tt).
  { vm_compute. reflexivity. }
  assert (H5 : 1%nat ∈ tracks (obj_at world_release 2%nat)).
  { replace (tracks (obj_at world_release 2%nat)) with [1%nat]
      by (vm_compute; reflexivity). by left. }
  assert (H6 : attrs (obj_at world_release 1%nat) !! "track_id"%string
               = Some (VStr (txt "mocktrack"))).
  { vm_compute. reflexivity. }
  split; [by split_and!|].
  exact (@albuminfo_received_consumes basic_latin CONFIG_DROP_ARTIST 2%nat
           world_release H1 H2 H3 H4 1%nat (txt "mocktrack") H5 H6).
Defined.

(** ** A track of a release: cut first, then cleaned *)

(** X14: for a track whose recording has a non-empty join phrase in the table
    and whose fields to drop featured artists from hold strings, one round
    of the loop of release arrival ends normally and leaves in every
    attribute what the sanitizer, applied once for each time the attribute
    is named in [process_fields], makes of the value cut at the join phrase
    (for an attribute named in [drop_feats_from_fields]) or of the value
    itself (for any other). *)
Theorem process_track_composes `{Externals} cfg decoder t w id P :
  literal_brackets cfg →
  drop_feats_from_fields cfg ≠ [] →
  attrs (obj_at w t) !! "track_id" = Some (VStr id) →
  track_join_phrases w !! id = Some P →
  P ≠ [] →
  (∀ key v, key ∈ drop_feats_from_fields cfg →
            attrs (obj_at w t) !! key = Some v → ∃ V, v = VStr V) →
  ∃ w', process_track cfg decoder t w = (w', Ok tt) ∧
    ∀ k, attrs (obj_at w' t) !! k =
      Nat.iter (occurrences k (process_fields cfg))
               (sanitize_value cfg decoder)
        <$> (if bool_decide (k ∈ drop_feats_from_fields cfg)
             then truncate P <$> attrs (obj_at w t) !! k
             else attrs (obj_at w t) !! k).
Proof.
  intros Hlit Hdrop Hid HP Hne Hstr. unfold process_track.
  rewrite bool_decide_eq_true_2 by done.
  destruct (scrub_fields_ok t P (drop_feats_from_fields cfg)
              (with_join_phrases w (delete id (track_join_phrases w)))
              Hne Hstr) as (w1 & Hw1 & Hcut).
  rewrite <- (scrub_known cfg t w id P Hid HP) in Hw1.
  erewrite bind_ok by exact Hw1.
  destruct (process_fields_value cfg decoder t (process_fields cfg) w1 Hlit)
    as (w' & Hrun & Hclean).
  exists w'. split; [exact Hrun|].
  intros k. by rewrite Hclean, Hcut.
Qed.

(** The track of [test_drop_feats]: its artist "foo feat. bar" ends as
    "foo". *)
Lemma process_track_composes_witness :
  (literal_brackets CONFIG_DROP_ARTIST ∧
   drop_feats_from_fields CONFIG_DROP_ARTIST ≠ [] ∧
   attrs (obj_at world_feat 1%nat) !! "track_id"%string
     = Some (VStr (txt "mocktrack")) ∧
   track_join_phrases world_feat !! txt "mocktrack" = Some (txt " feat. ") ∧
   txt " feat. " ≠ []) ∧
  attrs (obj_at (@process_track basic_latin CONFIG_DROP_ARTIST None 1%nat
                   world_feat).1 1%nat) !! "artist"%string
    = Some (VStr (txt "foo")).
Proof.
  assert (Hlit : literal_brackets CONFIG_DROP_ARTIST).
  { right. split; apply (bool_decide_eq_false_1 (backslash ∈ _));
      vm_compute; reflexivity. }
  assert (Hstr : ∀ key v, key ∈ drop_feats_from_fields CONFIG_DROP_ARTIST →
            attrs (obj_at world_feat 1%nat) !! key = Some v →
            ∃ V, v = VStr V).
  { intros key v Hkey%list_elem_of_singleton Hv. subst key.
    replace (attrs (obj_at world_feat 1%nat) !! "artist"%string)
      with (Some (VStr (txt "foo feat. bar"))) in Hv
      by (vm_compute; reflexivity).
    injection Hv as <-. eauto. }
  split; [by split_and!|].
  destruct (@process_track_composes basic_latin CONFIG_DROP_ARTIST None 1%nat
              world_feat (txt "mocktrack") (txt " feat. ") Hlit
              ltac:(discriminate) eq_refl eq_refl ltac:(discriminate) Hstr)
    as (w' & -> & Hk).
  rewrite Hk. vm_compute. reflexivity.
Defined.


(** ** Capture, then scrub *)

Lemma captured_nonempty data id jp : captured data = Some (id, jp) → jp ≠ [].
Proof.
  unfold captured.
  destruct (artist_credit data) as [credits|]; [|done].
  destruct (recording_id data) as [rid|]; [|done].
  destruct (first_join_phrase credits) as [[|c s]|]; [done| |done].
  by intros [= _ <-].
Qed.

(** X13: a capture followed by the scrub of a track of the captured recording,
    whose fields to drop featured artists from hold strings: the scrub ends
    normally, every such field is cut at the captured phrase (whatever
    phrase the table held for the recording before), every other attribute
    is as it was, and the table is what it was before the capture, without
    the recording. *)
Theorem capture_then_scrub cfg data w info id jp :
  captured data = Some (id, jp) →
  attrs (obj_at w info) !! "track_id" = Some (VStr id) →
  (∀ key v, key ∈ drop_feats_from_fields cfg →
            attrs (obj_at w info) !! key = Some v → ∃ V, v = VStr V) →
  ∃ w', (_mb_track_extract data ≫= λ _, _scrub_track_feats cfg info) w
          = (w', Ok tt) ∧
    (∀ key, attrs (obj_at w' info) !! key =
       if bool_decide (key ∈ drop_feats_from_fields cfg)
       then truncate jp <$> attrs (obj_at w info) !! key
       else attrs (obj_at w info) !! key) ∧
    track_join_phrases w' = delete id (track_join_phrases w).
Proof.
  intros Hcap Hid Hstr.
  erewrite bind_ok by (rewrite mb_track_extract_run, Hcap; reflexivity).
  set (w1 := with_join_phrases w (<[id := jp]> (track_join_phrases w))).
  rewrite (scrub_known cfg info w1 id jp Hid (lookup_insert_eq _ _ _)).
  destruct (scrub_fields_ok info jp (drop_feats_from_fields cfg)
              (with_join_phrases w1 (delete id (track_join_phrases w1)))
              (captured_nonempty data id jp Hcap) Hstr)
    as (w' & Hrun & Hattrs).
  exists w'. split_and!; [done | exact Hattrs |].
  pose proof (scrub_fields_table info jp (drop_feats_from_fields cfg)
                (with_join_phrases w1 (delete id (track_join_phrases w1))))
    as Ht.
  rewrite Hrun in Ht. simpl in Ht. rewrite Ht. apply delete_insert_eq.
Qed.

(** The payload and the track of [test_drop_feats]. *)
Lemma capture_then_scrub_witness :
  (captured payload_feat = Some (txt "mocktrack", txt " feat. ") ∧
   attrs (obj_at world_feat 1%nat) !! "track_id"%string
     = Some (VStr (txt "mocktrack"))) ∧
  attrs (obj_at
           ((_mb_track_extract payload_feat ≫=
               λ _, _scrub_track_feats CONFIG_DROP_ARTIST 1%nat)
              world_feat).1 1%nat) !! "artist"%string
    = Some (VStr (txt "foo")).
Proof.
  assert (Hstr : ∀ key v, key ∈ drop_feats_from_fields CONFIG_DROP_ARTIST →
            attrs (obj_at world_feat 1%nat) !! key = Some v →
            ∃ V, v = VStr V).
  { intros key v Hkey%list_elem_of_singleton Hv. subst key.
    replace (attrs (obj_at world_feat 1%nat) !! "artist"%string)
      with (Some (VStr (txt "foo feat. bar"))) in Hv
      by (vm_compute; reflexivity).
    injection Hv as <-. eauto. }
  split; [by split|].
  destruct (capture_then_scrub CONFIG_DROP_ARTIST payload_feat world_feat
              1%nat (txt "mocktrack") (txt " feat. ") eq_refl eq_refl Hstr)
    as (w' & -> & Hk & _).
  rewrite Hk. vm_compute. reflexivity.
Defined.


(** ** Release arrival: what it leaves in the attributes *)


Section release_effect.
Context `{Externals} (cfg : config) (d : option Unidecoder).







End release_effect.


